(** * Stepper motor positioning system: a shallow embedding and its properties

    The sketch [stepper_positioning.ino] drives a stepper driver (STEP, DIR,
    EN) from line commands read on the serial port.  The firmware targets an
    Arduino Uno / Nano (AVR): [int] is 16 bits wide, [long] is 32 bits wide,
    both two's complement.  Machine integers are embedded as [Z] with the
    wrap-around written out ([to_long], [to_int]).  [float] and [double] are
    both IEEE binary32 there; their values are embedded as rationals, every
    operation rounding its exact result to the nearest binary32 number
    ([Binary32]).

    The global variables of the sketch, the output pins and everything the
    sketch does to the outside world (pin writes, pin reads, busy-wait delays,
    serial output) are gathered in one [State] record that every function
    threads explicitly.  The limit switch is an input of the environment:
    [LIMIT k] is the level seen by the [k]-th call of [digitalRead(LIMIT_PIN)]
    since boot. *)

From Stdlib Require Import ZArith List String Ascii Bool Lia QArith Qround Qabs.
Import ListNotations.

Local Open Scope string_scope.
Local Open Scope Z_scope.

(** ** Machine integers *)

Module MachineInt.

(** Two's complement reduction of [x] to [w] bits. *)
Definition wrap (w : Z) (x : Z) : Z :=
  (x + 2 ^ (w - 1)) mod 2 ^ w - 2 ^ (w - 1).

Definition LONG_MIN : Z := - 2 ^ 31.
Definition LONG_MAX : Z := 2 ^ 31 - 1.

(** [long] on AVR. *)
Definition to_long (x : Z) : Z := wrap 32 x.
(** [int] on AVR. *)
Definition to_int (x : Z) : Z := wrap 16 x.

Definition in_long (x : Z) : Prop := LONG_MIN <= x <= LONG_MAX.

(** The [abs] macro of Arduino.h: [((x)>0?(x):-(x))], on a [long].  For the
    most negative [long] the negation does not fit in a [long], which C
    leaves undefined; the value is then the magnitude [2^31], the number of
    times the loop of [move_to] is run on that distance. *)
Definition abs (x : Z) : Z := if 0 <? x then x else - x.

End MachineInt.
Export MachineInt.

(** ** Floating point *)

Module Binary32.

(** The [e] with [2^e <= x < 2^(e+1)], for [x > 0]. *)
Definition floor_log2 (x : Q) : Z :=
  let e0 := Z.log2 (Qnum x) - Z.log2 (Zpos (Qden x)) in
  if Qle_bool (Qpower 2 e0) x then e0 else e0 - 1.

(** The integer nearest to [x >= 0], the even one of the two when [x] is
    half way. *)
Definition nearest_even (x : Q) : Z :=
  let f := Qfloor x in
  match Qcompare (x - inject_Z f) (1 # 2) with
  | Lt => f
  | Gt => f + 1
  | Eq => if Z.even f then f else f + 1
  end.

(** [x > 0] rounded to a significand of 24 bits. *)
Definition round_pos (x : Q) : Q :=
  let u := Qpower 2 (floor_log2 x - 23) in
  Qred (inject_Z (nearest_even (x / u)) * u).

(** Rounding to the nearest binary32 number, ties to even.  The exponent
    range is not modelled: the sketch computes with zero and with
    magnitudes between 1/100 and 1000 only. *)
Definition round (x : Q) : Q :=
  match Qcompare x 0 with
  | Eq => 0%Q
  | Gt => round_pos x
  | Lt => Qred (- round_pos (- x))
  end.

(** Conversion of an integer, and the four operations. *)
Definition of_Z (z : Z) : Q := round (inject_Z z).
Definition mul (a b : Q) : Q := round (a * b).
Definition div (a b : Q) : Q := round (a / b).
Definition add (a b : Q) : Q := round (a + b).
Definition sub (a b : Q) : Q := round (a - b).

End Binary32.

(** ** The Arduino [String] operations the sketch uses *)

Module ArduinoString.

(** [isspace] of the C library, "C" locale. *)
Definition isspace (c : ascii) : bool :=
  let n := nat_of_ascii c in
  Nat.eqb n 32 || (Nat.leb 9 n && Nat.leb n 13).

Definition isdigit (c : ascii) : bool :=
  let n := nat_of_ascii c in
  Nat.leb 48 n && Nat.leb n 57.

Definition digit_value (c : ascii) : Z := Z.of_nat (nat_of_ascii c) - 48.

(** [toupper] of the C library, "C" locale. *)
Definition toupper (c : ascii) : ascii :=
  let n := nat_of_ascii c in
  if Nat.leb 97 n && Nat.leb n 122 then ascii_of_nat (n - 32) else c.

(** [String::startsWith(prefix)]. *)
Definition startsWith (s p : string) : bool := String.prefix p s.

(** [String::substring(beginIndex)]: the suffix that starts at
    [beginIndex]; the empty string when [beginIndex] is past the end. *)
Fixpoint substring (beginIndex : nat) (s : string) : string :=
  match beginIndex, s with
  | O, _ => s
  | S n, String _ r => substring n r
  | S _, EmptyString => EmptyString
  end.

Fixpoint skip_space (s : string) : string :=
  match s with
  | String c r => if isspace c then skip_space r else s
  | EmptyString => EmptyString
  end.

(** The digit loop of [atol]: accumulates in a [long], without any
    overflow check (avr-libc). *)
Fixpoint atol_digits (acc : Z) (s : string) : Z :=
  match s with
  | String c r =>
      if isdigit c then atol_digits (to_long (acc * 10 + digit_value c)) r
      else acc
  | EmptyString => acc
  end.

(** [atol]: leading white space, an optional sign, then decimal digits up to
    the first character that is not a digit. *)
Definition atol (s : string) : Z :=
  match skip_space s with
  | String c r =>
      if Ascii.eqb c "-" then to_long (- atol_digits 0 r)
      else if Ascii.eqb c "+" then atol_digits 0 r
      else atol_digits 0 (String c r)
  | EmptyString => 0
  end.

(** [String::toInt()] is [atol] on the character buffer. *)
Definition toInt (s : string) : Z := atol s.

(** [String::toUpperCase()]. *)
Fixpoint toUpperCase (s : string) : string :=
  match s with
  | String c r => String (toupper c) (toUpperCase r)
  | EmptyString => EmptyString
  end.

(** Removes the white space at the end of [s]. *)
Fixpoint trim_end (s : string) : string :=
  match s with
  | String c r =>
      match trim_end r with
      | EmptyString => if isspace c then EmptyString else String c EmptyString
      | t => String c t
      end
  | EmptyString => EmptyString
  end.

(** [String::trim()]: removes leading and trailing white space. *)
Definition trim (s : string) : string := trim_end (skip_space s).

End ArduinoString.
Export ArduinoString.

(** ** Pins, events and the state of the sketch *)

Inductive Level : Type := LOW | HIGH.

(** Pin definitions. *)
Definition STEP_PIN : Z := 3.
Definition DIR_PIN : Z := 4.
Definition EN_PIN : Z := 5.
Definition LIMIT_PIN : Z := 2.

(** Motor parameters. *)
Definition STEPS_PER_REV : Z := 200.
Definition MICROSTEP_MODE : Z := 1.

Definition MIN_DELAY_US : Z := 500.
Definition MAX_DELAY_US : Z := 10000.

(** What the sketch does to the outside world, one constructor per Arduino
    primitive it calls. *)
Inductive Event : Type :=
| DigitalWrite (pin : Z) (v : Level)
| DigitalRead (pin : Z) (v : Level)
| DelayMicroseconds (us : Z)
| SerialPrint (s : string)
| SerialPrintln (s : string)
| SerialPrintNum (n : Z)
| SerialPrintlnNum (n : Z)
| SerialPrintFloat (x : Q) (digits : Z).

Record State : Type := mkState {
  current_position : Z;      (* long: absolute position in steps *)
  target_position : Z;       (* long *)
  step_delay_us : Z;         (* int: microseconds between steps *)
  step_level : Level;        (* output latch of STEP_PIN *)
  dir_level : Level;         (* output latch of DIR_PIN *)
  en_level : Level;          (* output latch of EN_PIN, active LOW *)
  limit_reads : nat;         (* calls of digitalRead(LIMIT_PIN) so far *)
  log : list Event           (* events, most recent first *)
}.

(** The events in the order they happened. *)
Definition trace (s : State) : list Event := rev (log s).

Definition emit (e : Event) (s : State) : State :=
  mkState (current_position s) (target_position s) (step_delay_us s)
          (step_level s) (dir_level s) (en_level s) (limit_reads s)
          (e :: log s).

Definition set_current_position (p : Z) (s : State) : State :=
  mkState p (target_position s) (step_delay_us s)
          (step_level s) (dir_level s) (en_level s) (limit_reads s) (log s).

Definition set_target_position (p : Z) (s : State) : State :=
  mkState (current_position s) p (step_delay_us s)
          (step_level s) (dir_level s) (en_level s) (limit_reads s) (log s).

Definition set_step_delay_us (d : Z) (s : State) : State :=
  mkState (current_position s) (target_position s) d
          (step_level s) (dir_level s) (en_level s) (limit_reads s) (log s).

Definition set_latch (pin : Z) (v : Level) (s : State) : State :=
  if pin =? STEP_PIN then
    mkState (current_position s) (target_position s) (step_delay_us s)
            v (dir_level s) (en_level s) (limit_reads s) (log s)
  else if pin =? DIR_PIN then
    mkState (current_position s) (target_position s) (step_delay_us s)
            (step_level s) v (en_level s) (limit_reads s) (log s)
  else if pin =? EN_PIN then
    mkState (current_position s) (target_position s) (step_delay_us s)
            (step_level s) (dir_level s) v (limit_reads s) (log s)
  else s.

(** *** Arduino primitives *)

Definition digitalWrite (pin : Z) (v : Level) (s : State) : State :=
  emit (DigitalWrite pin v) (set_latch pin v s).

Definition delayMicroseconds (us : Z) (s : State) : State :=
  emit (DelayMicroseconds us) s.

Definition Serial_print (m : string) (s : State) : State :=
  emit (SerialPrint m) s.

Definition Serial_println (m : string) (s : State) : State :=
  emit (SerialPrintln m) s.

Definition Serial_print_num (n : Z) (s : State) : State :=
  emit (SerialPrintNum n) s.

Definition Serial_println_num (n : Z) (s : State) : State :=
  emit (SerialPrintlnNum n) s.

Definition Serial_print_float (x : Q) (digits : Z) (s : State) : State :=
  emit (SerialPrintFloat x digits) s.

(** The state at reset: globals at their initialisers, output latches low,
    nothing logged. *)
Definition boot : State := mkState 0 0 1500 LOW LOW LOW 0 [].

(** ** The sketch *)

(** How the homing loop is left: by its condition becoming false, or by the
    [return] in its body. *)
Inductive LoopExit : Type :=
| Fallthrough (s : State)
| Returned (s : State).

Section Sketch.

(** [LIMIT k]: the level of the limit switch input at the [k]-th read since
    boot ([HIGH] when the switch is open, the pin being pulled up). *)
Variable LIMIT : nat -> Level.

(** [digitalRead(pin)]; the sketch reads no other pin than LIMIT_PIN. *)
Definition digitalRead (pin : Z) (s : State) : Level * State :=
  let v := LIMIT (limit_reads s) in
  (v, mkState (current_position s) (target_position s) (step_delay_us s)
              (step_level s) (dir_level s) (en_level s)
              (S (limit_reads s)) (DigitalRead pin v :: log s)).

(** *** Low-level motor control *)

Definition step_once (s : State) : State :=
  let s := digitalWrite STEP_PIN HIGH s in
  let s := delayMicroseconds 10 s in
  let s := digitalWrite STEP_PIN LOW s in
  delayMicroseconds (step_delay_us s) s.

Definition set_direction (forward : bool) (s : State) : State :=
  let s := digitalWrite DIR_PIN (if forward then HIGH else LOW) s in
  delayMicroseconds 5 s.

Definition enable_motor (s : State) : State :=
  let s := digitalWrite EN_PIN LOW s in
  delayMicroseconds 100 s.

Definition disable_motor (s : State) : State :=
  digitalWrite EN_PIN HIGH s.

(** *** Motion functions *)

(** The body of the [for] loop of [move_to]. *)
Definition move_body (steps_to_move : Z) (s : State) : State :=
  let s := step_once s in
  if 0 <? steps_to_move
  then set_current_position (to_long (current_position s + 1)) s
  else set_current_position (to_long (current_position s - 1)) s.

(** [for (long i = 0; i < abs_steps; i++) body]: the body neither writes
    [i] nor [abs_steps], so it runs [abs_steps] times when that is
    positive and not at all otherwise; [n] is the number of iterations
    left. *)
Fixpoint move_loop (n : nat) (steps_to_move : Z) (s : State) : State :=
  match n with
  | O => s
  | S n' => move_loop n' steps_to_move (move_body steps_to_move s)
  end.

Definition move_to (target : Z) (s : State) : State :=
  let s := enable_motor s in
  let steps_to_move := to_long (target - current_position s) in
  if steps_to_move =? 0 then
    Serial_println "Already at target." s
  else
    let s := set_direction (0 <? steps_to_move) s in
    let abs_steps := abs steps_to_move in
    let s := Serial_print "Moving " s in
    let s := Serial_print_num abs_steps s in
    let s := Serial_println (if 0 <? steps_to_move
                             then " steps FORWARD..."
                             else " steps BACKWARD...") s in
    let s := move_loop (Z.to_nat abs_steps) steps_to_move s in
    let s := Serial_print "Done. Position: " s in
    let s := Serial_println_num (current_position s) s in
    disable_motor s.

Definition move_relative (steps : Z) (s : State) : State :=
  let target := to_long (current_position s + steps) in
  move_to target s.

(** The first two statements of the body of the [while] loop of
    [home_sequence]. *)
Definition home_body (s : State) : State :=
  let s := step_once s in
  set_current_position (to_long (current_position s - 1)) s.

Definition homing_failure_message : string :=
  "ERROR: Limit switch not found. Stopping.".

Definition home_found_message : string :=
  "Home found. Position reset to 0.".

(** The [while] loop of [home_sequence].  [fuel] bounds the number of
    times the loop condition is evaluated; [None] means the bound was
    reached. *)
Fixpoint home_loop (fuel : nat) (s : State) : option LoopExit :=
  match fuel with
  | O => None
  | S fuel' =>
      let (v, s) := digitalRead LIMIT_PIN s in
      match v with
      | HIGH =>
          let s := home_body s in
          if current_position s <? -10000 then
            let s := Serial_println homing_failure_message s in
            Some (Returned (disable_motor s))
          else home_loop fuel' s
      | LOW => Some (Fallthrough s)
      end
  end.

Definition home_sequence (fuel : nat) (s : State) : option State :=
  let s := Serial_println "Homing..." s in
  let s := enable_motor s in
  let s := set_direction false s in
  match home_loop fuel s with
  | None => None
  | Some (Returned s) => Some s
  | Some (Fallthrough s) =>
      let s := set_current_position 0 s in
      let s := set_target_position 0 s in
      let s := Serial_println home_found_message s in
      Some (disable_motor s)
  end.

(** The statements of [home_sequence] before its loop. *)
Definition home_prelude (s : State) : State :=
  set_direction false (enable_motor (Serial_println "Homing..." s)).

(** The state in which the condition of the homing loop is evaluated next,
    when the switch is open and the bound is not reached. *)
Definition home_next (s : State) : State :=
  home_body (snd (digitalRead LIMIT_PIN s)).

(** *** Status *)

Definition nl : string := String "010" EmptyString.

(** [(current_position % STEPS_PER_REV) * (360.0 / STEPS_PER_REV)]: the
    remainder is a [long], converted to floating point for the product; the
    quotient of the literal 360.0 by the [int] 200 and the product are each
    rounded to binary32. *)
Definition status_degrees (s : State) : Q :=
  Binary32.mul
    (Binary32.of_Z (Z.rem (current_position s) STEPS_PER_REV))
    (Binary32.div (Binary32.round 360) (Binary32.of_Z STEPS_PER_REV)).

Arguments status_degrees : simpl never.

Definition status_revs (s : State) : Z :=
  Z.quot (current_position s) STEPS_PER_REV.

Definition print_status (s : State) : State :=
  let degrees := status_degrees s in
  let revs := status_revs s in
  let s := Serial_println (nl ++ "--- Motor Status ---") s in
  let s := Serial_print "  Position (steps)  : " s in
  let s := Serial_println_num (current_position s) s in
  let s := Serial_print "  Position (revs)   : " s in
  let s := Serial_println_num revs s in
  let s := Serial_print "  Angle             : " s in
  let s := Serial_print_float degrees 1 s in
  let s := Serial_println "°" s in
  let s := Serial_print "  Step delay        : " s in
  let s := Serial_print_num (step_delay_us s) s in
  let s := Serial_println " us" s in
  Serial_println ("--------------------" ++ nl) s.

(** *** Command parser *)

Definition unknown_command_message : string :=
  "Unknown command. Use: MOVE, GOTO, HOME, SPEED, STATUS".

Definition speed_range_message : string :=
  "Speed out of range (500–10000 us)".

Definition handle_command (fuel : nat) (cmd : string) (s : State)
  : option State :=
  if startsWith cmd "MOVE " then
    let steps := toInt (substring 5 cmd) in
    Some (move_relative steps s)
  else if startsWith cmd "GOTO " then
    let pos := toInt (substring 5 cmd) in
    Some (move_to pos s)
  else if String.eqb cmd "HOME" then
    home_sequence fuel s
  else if startsWith cmd "SPEED " then
    let spd := to_int (toInt (substring 6 cmd)) in
    if (MIN_DELAY_US <=? spd) && (spd <=? MAX_DELAY_US) then
      let s := set_step_delay_us spd s in
      let s := Serial_print "Speed set: " s in
      let s := Serial_print_num (step_delay_us s) s in
      Some (Serial_println " us/step" s)
    else
      Some (Serial_println speed_range_message s)
  else if String.eqb cmd "STATUS" then
    Some (print_status s)
  else
    Some (Serial_println unknown_command_message s).

(** *** Setup and main loop *)

(** [Serial.begin] and the four [pinMode] calls configure the peripherals
    and leave the globals and the output latches as they are. *)
Definition setup (s : State) : State :=
  let s := disable_motor s in
  let s := Serial_println "Stepper Motor Positioning System Ready." s in
  Serial_println "Commands: MOVE <n>, GOTO <n>, HOME, SPEED <us>, STATUS" s.

(** One turn of [loop]: [incoming] is the line [readStringUntil] returns
    when [Serial.available()], [None] when nothing is available. *)
Definition loop (fuel : nat) (incoming : option string) (s : State)
  : option State :=
  match incoming with
  | Some line =>
      let cmd := toUpperCase (trim line) in
      handle_command fuel cmd s
  | None => Some s
  end.

(** The command loop on a sequence of lines. *)
Fixpoint run (fuel : nat) (lines : list string) (s : State) : option State :=
  match lines with
  | [] => Some s
  | line :: rest =>
      match loop fuel (Some line) s with
      | Some s' => run fuel rest s'
      | None => None
      end
  end.

End Sketch.

(** The number of step pulses (rising edges written to STEP_PIN) in a log. *)
Fixpoint count_steps (l : list Event) : Z :=
  match l with
  | [] => 0
  | DigitalWrite pin HIGH :: r =>
      if pin =? STEP_PIN then 1 + count_steps r else count_steps r
  | _ :: r => count_steps r
  end.

Definition step_pulses (s : State) : Z := count_steps (log s).

(** A limit switch that never closes. *)
Definition never_active : nat -> Level := fun _ => HIGH.

(** A limit switch that closes after [k] reads. *)
Definition active_after (k : nat) : nat -> Level :=
  fun i => if Nat.ltb i k then HIGH else LOW.

(** The state when [loop] runs for the first time. *)
Definition init : State := setup boot.

(** The state after the line "MOVE 400" from the initial state. *)
Definition at_400 : State := move_relative 400 init.

(** ** Vocabulary of the specification *)

(** The invariant of the data model: the position is a [long] and the step
    delay is within its range. *)
Definition wf (s : State) : Prop :=
  in_long (current_position s) /\
  MIN_DELAY_US <= step_delay_us s <= MAX_DELAY_US.

(** The state a loop exit carries. *)
Definition exit_state (r : LoopExit) : State :=
  match r with
  | Fallthrough s => s
  | Returned s => s
  end.

(** The number of times the condition of the homing loop can be evaluated
    at most, from position [p]. *)
Definition home_bound (p : Z) : Z :=
  if p =? LONG_MIN then 2 ^ 31 + 10001 else Z.max 1 (p + 10001).

(** The position, the target and the pins of [s'] are those of [s]. *)
Definition same_position_and_pins (s s' : State) : Prop :=
  current_position s' = current_position s /\
  target_position s' = target_position s /\
  step_level s' = step_level s /\
  dir_level s' = dir_level s /\
  en_level s' = en_level s /\
  limit_reads s' = limit_reads s.

(** Nothing but the log differs between [s] and [s']. *)
Definition same_motor_state (s s' : State) : Prop :=
  same_position_and_pins s s' /\ step_delay_us s' = step_delay_us s.

(** The command forms of the grammar: a keyword followed by a space and an
    argument, or one of the two bare keywords. *)
Definition command_form (cmd : string) : Prop :=
  (exists a, cmd = "MOVE " ++ a) \/
  (exists a, cmd = "GOTO " ++ a) \/
  cmd = "HOME" \/
  (exists a, cmd = "SPEED " ++ a) \/
  cmd = "STATUS".

(** The outcome [r] of a command is the unknown-command reply on [s]: the
    message is printed and nothing else happens. *)
Definition replies_unknown (r : option State) (s : State) : Prop :=
  exists s', r = Some s' /\ same_motor_state s s' /\
             trace s' = (trace s ++ [SerialPrintln unknown_command_message])%list.

Fixpoint all_space (s : string) : bool :=
  match s with
  | String c r => isspace c && all_space r
  | EmptyString => true
  end.

(** [a] has a valid numeric prefix: optional white space, an optional sign
    and at least one decimal digit. *)
Definition has_numeric_prefix (a : string) : Prop :=
  exists ws sign d rest,
    a = ws ++ sign ++ String d rest /\
    all_space ws = true /\
    (sign = "" \/ sign = "+" \/ sign = "-") /\
    isdigit d = true.

(** [Print::printFloat(number, digits)] of the Arduino core, for a finite
    number below its overflow threshold: whether a minus sign is printed,
    the integer part, and the digits after the point.  The number is made
    positive, half a unit of the last digit is added, the integer part is
    cut off, and each digit is the integer part of ten times what is left;
    every operation is a binary32 operation. *)
Fixpoint printFloat_rounding (digits : nat) (rounding : Q) : Q :=
  match digits with
  | O => rounding
  | S n => printFloat_rounding n (Binary32.div rounding (Binary32.round 10))
  end.

Fixpoint printFloat_digits (digits : nat) (remainder : Q) : list Z :=
  match digits with
  | O => []
  | S n =>
      let remainder := Binary32.mul remainder (Binary32.round 10) in
      let toPrint := Qfloor remainder in
      toPrint :: printFloat_digits n (Binary32.sub remainder (Binary32.of_Z toPrint))
  end.

Definition printFloat (number : Q) (digits : nat) : bool * Z * list Z :=
  let negative := match Qcompare number 0 with Lt => true | _ => false end in
  let number := if negative then Qred (- number) else number in
  let number := Binary32.add number (printFloat_rounding digits (1 # 2)) in
  let int_part := Qfloor number in
  let remainder := Binary32.sub number (Binary32.of_Z int_part) in
  (negative, int_part, printFloat_digits digits remainder).

(** The angle as [print_status] computes it from the remainder [r]. *)
Definition degrees_of_rem (r : Z) : Q :=
  Binary32.mul (Binary32.of_Z r)
    (Binary32.div (Binary32.round 360) (Binary32.of_Z STEPS_PER_REV)).

(** The remainders of a division by 200: -199, ..., 199. *)
Definition rem_values : list Z :=
  map (fun i => Z.of_nat i - 199) (seq 0 399).

(** [r] times 1.8 with one digit after the point, as sign, integer part
    and digit. *)
Definition exact_tenths (r : Z) : bool * Z * list Z :=
  (r <? 0, Z.abs (r * 18) / 10, [Z.abs (r * 18) mod 10]).

Definition rendering_eqb (a b : bool * Z * list Z) : bool :=
  match a, b with
  | (n1, i1, [d1]), (n2, i2, [d2]) =>
      Bool.eqb n1 n2 && (i1 =? i2) && (d1 =? d2)
  | _, _ => false
  end.

(** Integer division that truncates toward zero, from the floor division of
    the magnitudes. *)
Definition truncate_toward_zero (a b : Z) : Z :=
  Z.sgn a * Z.sgn b * (Z.abs a / Z.abs b).

(** The remainder that keeps the sign of the dividend. *)
Definition sign_preserving_mod (a b : Z) : Z :=
  Z.sgn a * (Z.abs a mod Z.abs b).

(** *** Waveforms *)

(** One step pulse as [step_once] emits it, with step delay [d]. *)
Definition pulse (d : Z) : list Event :=
  [DigitalWrite STEP_PIN HIGH; DelayMicroseconds 10;
   DigitalWrite STEP_PIN LOW; DelayMicroseconds d].

(** [n] copies of the events [l], one after the other. *)
Fixpoint repeat_events (n : nat) (l : list Event) : list Event :=
  match n with
  | O => []
  | S n' => (l ++ repeat_events n' l)%list
  end.

(** The state of [move_to] when its [for] loop starts, for a distance
    [steps_to_move] that is not zero. *)
Definition move_start (steps_to_move : Z) (s : State) : State :=
  Serial_println (if 0 <? steps_to_move then " steps FORWARD..."
                  else " steps BACKWARD...")
    (Serial_print_num (abs steps_to_move)
       (Serial_print "Moving "
          (set_direction (0 <? steps_to_move) (enable_motor s)))).

(** The level of EN after the events [t], from the level [en]. *)
Fixpoint en_after (en : Level) (t : list Event) : Level :=
  match t with
  | [] => en
  | DigitalWrite pin v :: r =>
      if pin =? EN_PIN then en_after v r else en_after en r
  | _ :: r => en_after en r
  end.

(** Every rising edge on STEP in [t] comes while EN is low (driver
    enabled), EN being at [en] before [t]. *)
Fixpoint steps_while_enabled (en : Level) (t : list Event) : bool :=
  match t with
  | [] => true
  | DigitalWrite pin v :: r =>
      if pin =? EN_PIN then steps_while_enabled v r
      else if pin =? STEP_PIN then
        match v, en with
        | HIGH, HIGH => false
        | _, _ => steps_while_enabled en r
        end
      else steps_while_enabled en r
  | _ :: r => steps_while_enabled en r
  end.

(** The trace of [s] steps only while enabled, and the EN latch is what the
    trace says; [en0] is the level of EN before the first event. *)
Definition enabled_inv (en0 : Level) (s : State) : Prop :=
  steps_while_enabled en0 (trace s) = true /\
  en_after en0 (trace s) = en_level s.

(** The level of DIR after the events [t], from the level [dir]. *)
Fixpoint dir_after (dir : Level) (t : list Event) : Level :=
  match t with
  | [] => dir
  | DigitalWrite pin v :: r =>
      if pin =? DIR_PIN then dir_after v r else dir_after dir r
  | _ :: r => dir_after dir r
  end.

(** What the motor does on the events [t]: every rising edge on STEP is one
    step, forward when DIR is high and backward when it is low; [dir] is the
    level of DIR before [t]. *)
Fixpoint displacement (dir : Level) (t : list Event) : Z :=
  match t with
  | [] => 0
  | DigitalWrite pin v :: r =>
      if pin =? DIR_PIN then displacement v r
      else if pin =? STEP_PIN then
        match v with
        | HIGH => (match dir with HIGH => 1 | LOW => -1 end) + displacement dir r
        | LOW => displacement dir r
        end
      else displacement dir r
  | _ :: r => displacement dir r
  end.

(** From [s] to [s'] the position variable has followed the motor: it has
    moved by the displacement of the events in between, in 32-bit
    arithmetic. *)
Definition tracks (s s' : State) : Prop :=
  exists evs,
    trace s' = (trace s ++ evs)%list /\
    dir_level s' = dir_after (dir_level s) evs /\
    current_position s' =
      to_long (current_position s + displacement (dir_level s) evs).

(** *** Decimal arguments *)

Fixpoint all_digit (s : string) : bool :=
  match s with
  | String c r => isdigit c && all_digit r
  | EmptyString => true
  end.

(** The number that the decimal digits [s] write, after [acc]. *)
Fixpoint decimal_value (acc : Z) (s : string) : Z :=
  match s with
  | String c r => decimal_value (acc * 10 + digit_value c) r
  | EmptyString => acc
  end.

Definition starts_with_digit (s : string) : bool :=
  match s with
  | String c _ => isdigit c
  | EmptyString => false
  end.

(** ** Properties *)

(** *** Traces *)

Lemma trace_emit (e : Event) (s : State) :
  trace (emit e s) = (trace s ++ [e])%list.
Proof. reflexivity. Qed.

Ltac trace_norm :=
  unfold trace; simpl; repeat rewrite <- app_assoc; simpl.

(** *** Prefixes *)

Lemma startsWith_app (p a : string) : startsWith (p ++ a) p = true.
Proof.
  unfold startsWith. induction p as [|c p IH]; simpl.
  - destruct a; reflexivity.
  - destruct (ascii_dec c c) as [_|n]; [exact IH | now elim n].
Qed.

Lemma startsWith_inv (p s : string) :
  startsWith s p = true -> exists a, s = p ++ a.
Proof.
  unfold startsWith. revert s. induction p as [|c p IH]; intros s H.
  - exists s. reflexivity.
  - destruct s as [|d s]; simpl in H; [discriminate|].
    destruct (ascii_dec c d) as [->|_]; [|discriminate].
    destruct (IH s H) as [a ->]. exists a. reflexivity.
Qed.

Lemma not_command_form_dispatch (cmd : string) :
  ~ command_form cmd ->
  startsWith cmd "MOVE " = false /\
  startsWith cmd "GOTO " = false /\
  String.eqb cmd "HOME" = false /\
  startsWith cmd "SPEED " = false /\
  String.eqb cmd "STATUS" = false.
Proof.
  intros H. unfold command_form in H.
  repeat split.
  - destruct (startsWith cmd "MOVE ") eqn:E; [|reflexivity].
    elim H. left. now apply startsWith_inv.
  - destruct (startsWith cmd "GOTO ") eqn:E; [|reflexivity].
    elim H. right; left. now apply startsWith_inv.
  - destruct (String.eqb_spec cmd "HOME"); [|reflexivity].
    elim H. tauto.
  - destruct (startsWith cmd "SPEED ") eqn:E; [|reflexivity].
    elim H. do 3 right; left. now apply startsWith_inv.
  - destruct (String.eqb_spec cmd "STATUS"); [|reflexivity].
    elim H. tauto.
Qed.

Lemma unknown_reply (s : State) :
  replies_unknown (Some (Serial_println unknown_command_message s)) s.
Proof.
  eexists. split; [reflexivity|]. repeat split.
Qed.

(** *** The no-op move *)

Lemma to_long_0 : to_long 0 = 0.
Proof. reflexivity. Qed.

(** C2 (the code at the claim's input).  Called with the current position as
    target, [move_to] prints "Already at target." and toggles neither DIR nor
    STEP, but it has already driven EN low and waited 100 us, and it returns
    with the driver enabled. *)
Theorem move_to_same_target_enables_motor : forall s : State,
  let s' := move_to (current_position s) s in
  trace s' = (trace s ++ [DigitalWrite EN_PIN LOW; DelayMicroseconds 100;
                          SerialPrintln "Already at target."])%list /\
  en_level s' = LOW /\
  current_position s' = current_position s /\
  dir_level s' = dir_level s /\
  step_level s' = step_level s.
Proof.
  intros s s'. subst s'. unfold move_to.
  cbn [enable_motor delayMicroseconds digitalWrite emit set_latch
       current_position].
  replace (current_position s - _) with 0.
  2:{ simpl. lia. }
  rewrite to_long_0. simpl. repeat split. trace_norm. reflexivity.
Qed.

(** C1 (the code at the failing input).  After [setup] the driver is
    disabled; the line "MOVE 0" is handled and control is back in [loop]
    with EN low, the driver enabled. *)
Theorem noop_move_leaves_motor_enabled : forall (LIMIT : nat -> Level) (fuel : nat),
  en_level init = HIGH /\
  exists s', loop LIMIT fuel (Some "MOVE 0") init = Some s' /\
             en_level s' = LOW /\
             current_position s' = current_position init.
Proof.
  intros LIMIT fuel. split; [reflexivity|].
  eexists. split; [reflexivity|]. split; reflexivity.
Qed.

(** C10.  The bare keywords MOVE, GOTO and SPEED, with no space after them,
    get the unknown-command reply and change nothing; a line that ends in
    the space is trimmed to the bare keyword by [loop] first. *)
Theorem bare_keywords_are_unknown : forall (LIMIT : nat -> Level) (fuel : nat) (s : State),
  replies_unknown (handle_command LIMIT fuel "MOVE" s) s /\
  replies_unknown (handle_command LIMIT fuel "GOTO" s) s /\
  replies_unknown (handle_command LIMIT fuel "SPEED" s) s /\
  replies_unknown (loop LIMIT fuel (Some "move ") s) s /\
  replies_unknown (loop LIMIT fuel (Some "goto ") s) s /\
  replies_unknown (loop LIMIT fuel (Some "speed ") s) s.
Proof.
  intros LIMIT fuel s. repeat split; apply unknown_reply.
Qed.

(** C8.  A line that matches none of the command forms gets the
    unknown-command reply: the message is printed, and the position, the
    target, the step delay and the pins (EN among them) are unchanged. *)
Theorem unknown_command_changes_nothing :
  forall (LIMIT : nat -> Level) (fuel : nat) (cmd : string) (s : State),
  ~ command_form cmd ->
  replies_unknown (handle_command LIMIT fuel cmd s) s.
Proof.
  intros LIMIT fuel cmd s H.
  destruct (not_command_form_dispatch cmd H) as (M & G & HO & SP & ST).
  unfold handle_command. rewrite M, G, HO, SP, ST. apply unknown_reply.
Qed.

Lemma FOO_not_command_form : ~ command_form "FOO".
Proof.
  intros [[a H]|[[a H]|[H|[[a H]|H]]]]; discriminate H.
Defined.

Lemma unknown_command_changes_nothing_witness :
  ~ command_form "FOO" /\
  replies_unknown (handle_command never_active 0 "FOO" init) init.
Proof.
  split.
  - exact FOO_not_command_form.
  - apply (unknown_command_changes_nothing never_active 0 "FOO" init).
    exact FOO_not_command_form.
Defined.

(** *** The SPEED command *)

Lemma handle_command_SPEED (LIMIT : nat -> Level) (fuel : nat) (arg : string) (s : State) :
  handle_command LIMIT fuel ("SPEED " ++ arg) s =
  let spd := to_int (toInt arg) in
  if (MIN_DELAY_US <=? spd) && (spd <=? MAX_DELAY_US) then
    Some (Serial_println " us/step"
            (Serial_print_num spd
               (Serial_print "Speed set: " (set_step_delay_us spd s))))
  else Some (Serial_println speed_range_message s).
Proof.
  unfold handle_command.
  change (startsWith ("SPEED " ++ arg) "MOVE ") with false.
  change (startsWith ("SPEED " ++ arg) "GOTO ") with false.
  change (String.eqb ("SPEED " ++ arg) "HOME") with false.
  rewrite (startsWith_app "SPEED " arg). reflexivity.
Qed.

Lemma handle_command_MOVE (LIMIT : nat -> Level) (fuel : nat) (arg : string) (s : State) :
  handle_command LIMIT fuel ("MOVE " ++ arg) s =
  Some (move_relative (toInt arg) s).
Proof.
  unfold handle_command. rewrite (startsWith_app "MOVE " arg). reflexivity.
Qed.

Lemma handle_command_GOTO (LIMIT : nat -> Level) (fuel : nat) (arg : string) (s : State) :
  handle_command LIMIT fuel ("GOTO " ++ arg) s =
  Some (move_to (toInt arg) s).
Proof.
  unfold handle_command.
  change (startsWith ("GOTO " ++ arg) "MOVE ") with false.
  rewrite (startsWith_app "GOTO " arg). reflexivity.
Qed.

(** [SPEED <us>] on the [int] variable [spd], the parsed value narrowed to
    16 bits: the step delay becomes [spd] and the new speed is reported when
    [500 <= spd <= 10000]; otherwise the range error is reported and the
    step delay keeps its value.  Either way the position, the target and
    the pins are untouched. *)
Theorem speed_command_closed_interval :
  forall (LIMIT : nat -> Level) (fuel : nat) (arg : string) (s : State),
  let spd := to_int (toInt arg) in
  exists s',
    handle_command LIMIT fuel ("SPEED " ++ arg) s = Some s' /\
    same_position_and_pins s s' /\
    ((500 <= spd <= 10000 /\
      step_delay_us s' = spd /\
      trace s' = (trace s ++ [SerialPrint "Speed set: "; SerialPrintNum spd;
                              SerialPrintln " us/step"])%list)
     \/
     (~ 500 <= spd <= 10000 /\
      step_delay_us s' = step_delay_us s /\
      trace s' = (trace s ++ [SerialPrintln speed_range_message])%list)).
Proof.
  intros LIMIT fuel arg s spd.
  rewrite handle_command_SPEED. fold spd. cbv zeta.
  unfold MIN_DELAY_US, MAX_DELAY_US.
  destruct (500 <=? spd) eqn:Lo; destruct (spd <=? 10000) eqn:Hi; simpl;
    eexists; (split; [reflexivity|]); (split; [repeat split|]).
  - left. apply Z.leb_le in Lo, Hi. repeat split; try lia.
    trace_norm. reflexivity.
  - right. apply Z.leb_gt in Hi. repeat split; try lia.
  - right. apply Z.leb_gt in Lo. repeat split; try lia.
  - right. apply Z.leb_gt in Lo. repeat split; try lia.
Qed.

(** The boundary values, on the text of the command. *)
Example speed_boundaries : forall (LIMIT : nat -> Level) (fuel : nat),
  option_map step_delay_us (handle_command LIMIT fuel "SPEED 499" init) = Some 1500 /\
  option_map step_delay_us (handle_command LIMIT fuel "SPEED 500" init) = Some 500 /\
  option_map step_delay_us (handle_command LIMIT fuel "SPEED 10000" init) = Some 10000 /\
  option_map step_delay_us (handle_command LIMIT fuel "SPEED 10001" init) = Some 1500.
Proof. intros. repeat split. Qed.

(** [spd] is an [int]: the [long] that [toInt] returns is narrowed to 16
    bits before the range test. *)
Example speed_argument_is_narrowed : forall (LIMIT : nat -> Level) (fuel : nat),
  toInt "66036" = 66036 /\
  option_map step_delay_us (handle_command LIMIT fuel "SPEED 66036" init) = Some 500.
Proof. intros. split; reflexivity. Qed.

Lemma to_int_id (x : Z) : - 32768 <= x <= 32767 -> to_int x = x.
Proof.
  intros H. unfold to_int, wrap.
  change (2 ^ (16 - 1)) with 32768. change (2 ^ 16) with 65536.
  Z.div_mod_to_equations. lia.
Qed.

(** When the parsed value fits in an [int], the range test is made on the
    parsed value itself: it becomes the step delay exactly when it lies in
    [500, 10000], and the command is rejected with the range message
    otherwise. *)
Lemma speed_command_on_int_value :
  forall (LIMIT : nat -> Level) (fuel : nat) (arg : string) (s : State),
  - 32768 <= toInt arg <= 32767 ->
  handle_command LIMIT fuel ("SPEED " ++ arg) s =
  if (500 <=? toInt arg) && (toInt arg <=? 10000) then
    Some (Serial_println " us/step"
            (Serial_print_num (toInt arg)
               (Serial_print "Speed set: " (set_step_delay_us (toInt arg) s))))
  else Some (Serial_println speed_range_message s).
Proof.
  intros LIMIT fuel arg s H.
  rewrite handle_command_SPEED. cbv zeta. now rewrite (to_int_id _ H).
Qed.

(** C5 (the code at the failing input).  The argument of "SPEED 66036"
    parses to 66036, which is outside [500, 10000]; stored in the [int]
    variable [spd] it becomes 500, the range test passes, and the step delay
    is changed from 1500 to 500 with the speed-set report instead of the
    range error. *)
Theorem speed_above_int_range_is_accepted :
  forall (LIMIT : nat -> Level) (fuel : nat),
  toInt "66036" = 66036 /\
  ~ 500 <= 66036 <= 10000 /\
  step_delay_us init = 1500 /\
  exists s',
    handle_command LIMIT fuel "SPEED 66036" init = Some s' /\
    step_delay_us s' = 500 /\
    trace s' = (trace init ++ [SerialPrint "Speed set: "; SerialPrintNum 500;
                               SerialPrintln " us/step"])%list.
Proof.
  intros LIMIT fuel. split; [reflexivity|]. split; [lia|].
  split; [reflexivity|]. eexists. split; [reflexivity|].
  split; reflexivity.
Qed.

(** *** Lenient parsing of the arguments *)

Lemma skip_space_split (a : string) :
  exists ws, a = ws ++ skip_space a /\ all_space ws = true.
Proof.
  induction a as [|c a IH]; simpl.
  - exists "". split; reflexivity.
  - destruct (isspace c) eqn:E.
    + destruct IH as (ws & E1 & E2).
      exists (String c ws). simpl. rewrite E, E2. split; [|reflexivity].
      now rewrite <- E1.
    + exists "". split; reflexivity.
Qed.

Lemma atol_digits_stops (acc : Z) (c : ascii) (r : string) :
  isdigit c = false -> atol_digits acc (String c r) = acc.
Proof. intros H. simpl. now rewrite H. Qed.

Lemma toInt_no_numeric_prefix (a : string) :
  ~ has_numeric_prefix a -> toInt a = 0.
Proof.
  intros H. unfold toInt, atol.
  destruct (skip_space_split a) as (ws & E & W).
  destruct (skip_space a) as [|c r]; [reflexivity|].
  destruct (Ascii.eqb_spec c "-") as [->|Nm].
  { destruct r as [|d r]; [reflexivity|].
    destruct (isdigit d) eqn:D.
    - elim H. exists ws, "-", d, r. repeat split; auto.
    - rewrite atol_digits_stops by assumption. reflexivity. }
  destruct (Ascii.eqb_spec c "+") as [->|Np].
  { destruct r as [|d r]; [reflexivity|].
    destruct (isdigit d) eqn:D.
    - elim H. exists ws, "+", d, r. repeat split; auto.
    - now rewrite atol_digits_stops. }
  destruct (isdigit c) eqn:D.
  - elim H. exists ws, "", c, r. repeat split; auto.
  - now rewrite atol_digits_stops.
Qed.

(** C9.  When the argument has no valid numeric prefix it parses to 0:
    [MOVE <s>] is [move_relative(0)], [GOTO <s>] is [move_to(0)] and
    [SPEED <s>] tests 0 against the range, which rejects it. *)
Theorem non_numeric_argument_parses_to_zero :
  forall (LIMIT : nat -> Level) (fuel : nat) (a : string) (s : State),
  ~ has_numeric_prefix a ->
  toInt a = 0 /\
  handle_command LIMIT fuel ("MOVE " ++ a) s = Some (move_relative 0 s) /\
  handle_command LIMIT fuel ("GOTO " ++ a) s = Some (move_to 0 s) /\
  handle_command LIMIT fuel ("SPEED " ++ a) s =
    Some (Serial_println speed_range_message s).
Proof.
  intros LIMIT fuel a s H.
  pose proof (toInt_no_numeric_prefix a H) as E.
  split; [exact E|]. split; [|split].
  - now rewrite handle_command_MOVE, E.
  - now rewrite handle_command_GOTO, E.
  - rewrite handle_command_SPEED, E. reflexivity.
Qed.

Lemma XYZ_no_numeric_prefix : ~ has_numeric_prefix "XYZ".
Proof.
  intros (ws & sg & d & rest & E & W & S & D).
  destruct ws as [|c ws].
  - destruct S as [->|[->| ->]]; simpl in E; inversion E; subst; discriminate D.
  - simpl in E. inversion E; subst. discriminate W.
Defined.

Lemma non_numeric_argument_parses_to_zero_witness :
  ~ has_numeric_prefix "XYZ" /\
  toInt "XYZ" = 0 /\
  handle_command never_active 0 "MOVE XYZ" init = Some (move_relative 0 init).
Proof.
  split; [exact XYZ_no_numeric_prefix|].
  destruct (non_numeric_argument_parses_to_zero never_active 0 "XYZ" init
              XYZ_no_numeric_prefix) as (E & M & _).
  split; [exact E | exact M].
Defined.

(** The numeric prefix is read as far as it goes. *)
Example toInt_numeric_prefix :
  toInt "12ABC" = 12 /\ toInt "  -7 8" = -7 /\ toInt "+40X" = 40 /\
  toInt "-" = 0 /\ toInt "- 5" = 0 /\ toInt "" = 0.
Proof. repeat split. Qed.

(** *** 32-bit arithmetic *)

Ltac unfold_long :=
  unfold to_long, wrap, in_long, LONG_MIN, LONG_MAX in *;
  change (2 ^ (32 - 1)) with 2147483648 in *;
  change (2 ^ 32) with 4294967296 in *;
  change (2 ^ 31) with 2147483648 in *.

Ltac long_arith := unfold_long; Z.div_mod_to_equations; lia.

Lemma to_long_id (x : Z) : in_long x -> to_long x = x.
Proof. intros H. long_arith. Qed.

Lemma to_long_in_long (x : Z) : in_long (to_long x).
Proof. long_arith. Qed.

Lemma to_long_add_l (a b : Z) : to_long (to_long a + b) = to_long (a + b).
Proof. long_arith. Qed.

Lemma to_long_sub_l (a b : Z) : to_long (to_long a - b) = to_long (a - b).
Proof. long_arith. Qed.

(** *** Moves *)

Lemma move_body_position (d : Z) (s : State) :
  current_position (move_body d s) =
  if 0 <? d then to_long (current_position s + 1)
  else to_long (current_position s - 1).
Proof. unfold move_body. destruct (0 <? d); reflexivity. Qed.

Lemma move_body_frame (d : Z) (s : State) :
  target_position (move_body d s) = target_position s /\
  step_delay_us (move_body d s) = step_delay_us s /\
  en_level (move_body d s) = en_level s /\
  dir_level (move_body d s) = dir_level s /\
  limit_reads (move_body d s) = limit_reads s /\
  step_pulses (move_body d s) = step_pulses s + 1.
Proof.
  unfold move_body, step_pulses.
  destruct (0 <? d); repeat split;
    match goal with
    | |- count_steps ?l = _ => change (count_steps l) with (1 + count_steps (log s)); lia
    end.
Qed.

Lemma move_loop_position (n : nat) (d : Z) : forall s : State,
  in_long (current_position s) ->
  current_position (move_loop n d s) =
  if 0 <? d then to_long (current_position s + Z.of_nat n)
  else to_long (current_position s - Z.of_nat n).
Proof.
  induction n as [|n IH]; intros s H.
  - simpl move_loop. rewrite Z.add_0_r, Z.sub_0_r, to_long_id by assumption.
    now destruct (0 <? d).
  - simpl move_loop. rewrite IH.
    + rewrite move_body_position. destruct (0 <? d).
      * rewrite to_long_add_l. f_equal. lia.
      * rewrite to_long_sub_l. f_equal. lia.
    + rewrite move_body_position. destruct (0 <? d); apply to_long_in_long.
Qed.

Lemma move_loop_frame (n : nat) (d : Z) : forall s : State,
  target_position (move_loop n d s) = target_position s /\
  step_delay_us (move_loop n d s) = step_delay_us s /\
  en_level (move_loop n d s) = en_level s /\
  dir_level (move_loop n d s) = dir_level s /\
  limit_reads (move_loop n d s) = limit_reads s /\
  step_pulses (move_loop n d s) = step_pulses s + Z.of_nat n.
Proof.
  induction n as [|n IH]; intros s.
  - simpl. repeat split. lia.
  - simpl move_loop.
    destruct (IH (move_body d s)) as (A & B & C & D & E & F).
    destruct (move_body_frame d s) as (A' & B' & C' & D' & E' & F').
    rewrite A, B, C, D, E, F, A', B', C', D', E', F'. repeat split. lia.
Qed.

(** An effective move: the state after [move_to target] when the distance
    is not zero. *)
Lemma move_to_nonzero (target : Z) (s : State) :
  let d := to_long (target - current_position s) in
  d <> 0 ->
  exists s1,
    current_position s1 = current_position s /\
    target_position s1 = target_position s /\
    step_delay_us s1 = step_delay_us s /\
    limit_reads s1 = limit_reads s /\
    step_pulses s1 = step_pulses s /\
    let s2 := move_loop (Z.to_nat (abs d)) d s1 in
    move_to target s =
      disable_motor
        (Serial_println_num (current_position s2)
           (Serial_print "Done. Position: " s2)).
Proof.
  intros d Hd. unfold move_to.
  change (current_position (enable_motor s)) with (current_position s).
  fold d. apply Z.eqb_neq in Hd. rewrite Hd.
  exists (Serial_println (if 0 <? d then " steps FORWARD..."
                          else " steps BACKWARD...")
            (Serial_print_num (abs d)
               (Serial_print "Moving "
                  (set_direction (0 <? d) (enable_motor s))))).
  destruct (0 <? d); repeat split.
Qed.

(** [move_to] ends at its target, for every target and position. *)
Lemma move_to_position_any (target : Z) (s : State) :
  in_long target -> in_long (current_position s) ->
  current_position (move_to target s) = target.
Proof.
  intros Ht Hp.
  destruct (Z.eq_dec (to_long (target - current_position s)) 0) as [E|N].
  - unfold move_to.
    change (current_position (enable_motor s)) with (current_position s).
    rewrite E. simpl. long_arith.
  - destruct (move_to_nonzero target s N) as (s1 & P & _ & _ & _ & _ & E).
    cbv zeta in E. rewrite E. clear E.
    change (current_position (disable_motor ?x)) with (current_position x).
    cbn [Serial_println_num Serial_print emit current_position].
    rewrite move_loop_position by (rewrite P; assumption).
    rewrite P. unfold abs.
    destruct (0 <? to_long (target - current_position s)) eqn:Pos.
    + apply Z.ltb_lt in Pos. rewrite Z2Nat.id by lia. long_arith.
    + apply Z.ltb_ge in Pos.
      rewrite Z2Nat.id by long_arith. long_arith.
Qed.

Lemma move_to_en_level (target : Z) (s : State) :
  to_long (target - current_position s) <> 0 ->
  en_level (move_to target s) = HIGH.
Proof.
  intros N. destruct (move_to_nonzero target s N) as (s1 & _ & _ & _ & _ & _ & E).
  cbv zeta in E. rewrite E. reflexivity.
Qed.

(** C4.  For every starting position [p] and every [d], both of them
    [long]s, [move_relative d] ends with the position [p + d] whenever that
    sum is a position, that is a [long] (past the range the sum is reduced
    to 32 bits); and [move_relative d] followed by [move_relative (-d)]
    restores the position. *)
Theorem move_relative_adds_delta : forall (s : State) (d : Z),
  in_long (current_position s) ->
  in_long d ->
  (in_long (current_position s + d) ->
   current_position (move_relative d s) = current_position s + d) /\
  current_position (move_relative d s) = to_long (current_position s + d) /\
  (in_long (- d) ->
   current_position (move_relative (- d) (move_relative d s))
   = current_position s).
Proof.
  assert (Step : forall s d, in_long (current_position s) ->
            current_position (move_relative d s) = to_long (current_position s + d)).
  { intros s d Hp. unfold move_relative. apply move_to_position_any.
    - apply to_long_in_long.
    - assumption. }
  intros s d Hp Hd. split; [|split].
  - intros Hs. rewrite Step by assumption. now apply to_long_id.
  - now apply Step.
  - intros Hn. rewrite Step.
    + rewrite Step by assumption. long_arith.
    + rewrite Step by assumption. apply to_long_in_long.
Qed.

Lemma move_relative_adds_delta_witness :
  in_long (current_position init) /\ in_long 400 /\
  in_long (current_position init + 400) /\ in_long (- 400) /\
  current_position (move_relative 400 init) = current_position init + 400 /\
  current_position (move_relative (- 400) (move_relative 400 init))
  = current_position init.
Proof.
  assert (Hp : in_long (current_position init)) by (vm_compute; split; discriminate).
  assert (Hd : in_long 400) by (vm_compute; split; discriminate).
  assert (Hs : in_long (current_position init + 400))
    by (vm_compute; split; discriminate).
  assert (Hn : in_long (- 400)) by (vm_compute; split; discriminate).
  destruct (move_relative_adds_delta init 400 Hp Hd) as (A & _ & C).
  split; [exact Hp|]. split; [exact Hd|]. split; [exact Hs|].
  split; [exact Hn|]. split; [exact (A Hs) | exact (C Hn)].
Defined.

(** The most negative [long] as distance: 2^31 steps backward. *)
Example move_relative_most_negative :
  current_position (move_relative LONG_MIN init) = LONG_MIN.
Proof.
  unfold move_relative. cbv zeta.
  rewrite move_to_position_any;
    [reflexivity | apply to_long_in_long | vm_compute; split; discriminate].
Qed.

(** Past the range of a [long] the position wraps around. *)
Example move_relative_wraps :
  current_position (move_relative 1 (set_current_position LONG_MAX init)) = LONG_MIN.
Proof. reflexivity. Qed.

(** *** Homing *)

(** Both ways out of [home_sequence] end by printing a message and
    disabling the motor. *)
Lemma report_and_disable_frame (m : string) (s : State) :
  let s' := disable_motor (Serial_println m s) in
  current_position s' = current_position s /\
  step_pulses s' = step_pulses s /\
  target_position s' = target_position s /\
  step_delay_us s' = step_delay_us s /\
  en_level s' = HIGH /\
  log s' = DigitalWrite EN_PIN HIGH :: SerialPrintln m :: log s.
Proof. repeat split. Qed.

Section Homing.

Variable LIMIT : nat -> Level.

Lemma home_next_frame (s : State) :
  current_position (home_next LIMIT s) = to_long (current_position s - 1) /\
  target_position (home_next LIMIT s) = target_position s /\
  step_delay_us (home_next LIMIT s) = step_delay_us s /\
  en_level (home_next LIMIT s) = en_level s /\
  dir_level (home_next LIMIT s) = dir_level s /\
  limit_reads (home_next LIMIT s) = S (limit_reads s) /\
  step_pulses (home_next LIMIT s) = step_pulses s + 1.
Proof.
  repeat split. unfold step_pulses.
  change (count_steps (log (home_next LIMIT s))) with (1 + count_steps (log s)). lia.
Qed.

Lemma home_loop_open (fuel : nat) (s : State) :
  LIMIT (limit_reads s) = HIGH ->
  home_loop LIMIT (S fuel) s =
  if current_position (home_next LIMIT s) <? -10000
  then Some (Returned (disable_motor
                         (Serial_println homing_failure_message (home_next LIMIT s))))
  else home_loop LIMIT fuel (home_next LIMIT s).
Proof.
  intros H. unfold home_next. cbn [home_loop digitalRead snd]. rewrite H.
  reflexivity.
Qed.

Lemma home_loop_closed (fuel : nat) (s : State) :
  LIMIT (limit_reads s) = LOW ->
  home_loop LIMIT (S fuel) s =
  Some (Fallthrough (snd (digitalRead LIMIT LIMIT_PIN s))).
Proof.
  intros H. cbn [home_loop digitalRead snd]. rewrite H. reflexivity.
Qed.

(** With the switch open for ever the loop is left by its [return], one
    step after the position has reached -10000, or after a single step
    when the position is already below. *)
Lemma home_loop_abort (k : nat) : forall (s : State) (fuel : nat),
  (forall i, LIMIT i = HIGH) ->
  LONG_MIN < current_position s <= LONG_MAX ->
  Z.max 0 (current_position s + 10000) = Z.of_nat k ->
  (k < fuel)%nat ->
  exists s',
    home_loop LIMIT fuel s = Some (Returned s') /\
    current_position s' = Z.min (current_position s - 1) (-10001) /\
    step_pulses s' = step_pulses s + Z.of_nat k + 1 /\
    target_position s' = target_position s /\
    step_delay_us s' = step_delay_us s /\
    en_level s' = HIGH /\
    exists l, log s' = DigitalWrite EN_PIN HIGH
                       :: SerialPrintln homing_failure_message :: l.
Proof.
  induction k as [|k IH]; intros s fuel Hopen Hp Hk Hf;
    (destruct fuel as [|fuel]; [lia|]);
    rewrite home_loop_open by apply Hopen;
    destruct (home_next_frame s) as (P & T & D & _ & _ & _ & N);
    assert (P' : current_position (home_next LIMIT s) = current_position s - 1)
      by (rewrite P; long_arith).
  - assert (B : (current_position (home_next LIMIT s) <? -10000) = true)
      by (apply Z.ltb_lt; lia).
    rewrite B. eexists. split; [reflexivity|].
    destruct (report_and_disable_frame homing_failure_message (home_next LIMIT s))
      as (P1 & N1 & T1 & D1 & E1 & L1).
    rewrite P1, N1, T1, D1, P', N, T, D.
    repeat split; try assumption; try lia.
    eexists. exact L1.
  - assert (B : (current_position (home_next LIMIT s) <? -10000) = false)
      by (apply Z.ltb_ge; lia).
    rewrite B.
    destruct (IH (home_next LIMIT s) fuel Hopen) as (s' & E & P2 & N2 & T2 & D2 & EN2 & L2);
      try lia.
    + unfold_long. lia.
    + exists s'. split; [exact E|].
      rewrite P2, N2, T2, D2, P', N, T, D.
      repeat split; try assumption; lia.
Qed.

(** With the switch open for [k] reads and closed at the following one, the
    loop is left through its condition after [k] steps, provided the
    position stays at -10000 or above. *)
Lemma home_loop_found (k : nat) : forall (s : State) (fuel : nat),
  in_long (current_position s) ->
  (k = 0%nat \/ -10000 <= current_position s - Z.of_nat k) ->
  (forall i, (i < k)%nat -> LIMIT (limit_reads s + i) = HIGH) ->
  LIMIT (limit_reads s + k) = LOW ->
  (k < fuel)%nat ->
  exists s',
    home_loop LIMIT fuel s = Some (Fallthrough s') /\
    current_position s' = current_position s - Z.of_nat k /\
    step_pulses s' = step_pulses s + Z.of_nat k /\
    step_delay_us s' = step_delay_us s.
Proof.
  induction k as [|k IH]; intros s fuel Hp Hb Hopen Hclosed Hf;
    (destruct fuel as [|fuel]; [lia|]).
  - rewrite Nat.add_0_r in Hclosed.
    rewrite home_loop_closed by assumption.
    eexists. split; [reflexivity|].
    cbn [digitalRead snd current_position step_delay_us].
    unfold step_pulses. cbn [log count_steps]. repeat split; lia.
  - destruct Hb as [Hb|Hb]; [discriminate|].
    rewrite home_loop_open
      by (rewrite <- (Nat.add_0_r (limit_reads s)); apply Hopen; lia).
    destruct (home_next_frame s) as (P & _ & D & _ & _ & R & N).
    assert (P' : current_position (home_next LIMIT s) = current_position s - 1)
      by (rewrite P; long_arith).
    assert (B : (current_position (home_next LIMIT s) <? -10000) = false)
      by (apply Z.ltb_ge; lia).
    rewrite B.
    destruct (IH (home_next LIMIT s) fuel) as (s' & E & P2 & N2 & D2).
    + rewrite P'. unfold_long. lia.
    + right. lia.
    + intros i Hi. rewrite R.
      replace (S (limit_reads s) + i)%nat with (limit_reads s + S i)%nat by lia.
      apply Hopen. lia.
    + rewrite R.
      replace (S (limit_reads s) + k)%nat with (limit_reads s + S k)%nat by lia.
      exact Hclosed.
    + lia.
    + exists s'. split; [exact E|]. rewrite P2, N2, D2, P', N, D.
      repeat split; lia.
Qed.

Lemma home_sequence_unfold (fuel : nat) (s : State) :
  home_sequence LIMIT fuel s =
  match home_loop LIMIT fuel (home_prelude s) with
  | None => None
  | Some (Returned s1) => Some s1
  | Some (Fallthrough s1) =>
      Some (disable_motor
              (Serial_println home_found_message
                 (set_target_position 0 (set_current_position 0 s1))))
  end.
Proof. reflexivity. Qed.

Lemma home_sequence_abort (s : State) (fuel : nat) :
  (forall i, LIMIT i = HIGH) ->
  LONG_MIN < current_position s <= LONG_MAX ->
  Z.max 1 (current_position s + 10001) <= Z.of_nat fuel ->
  exists s',
    home_sequence LIMIT fuel s = Some s' /\
    step_pulses s' - step_pulses s = Z.max 1 (current_position s + 10001) /\
    current_position s' = Z.min (current_position s - 1) (-10001) /\
    target_position s' = target_position s /\
    step_delay_us s' = step_delay_us s /\
    en_level s' = HIGH /\
    exists l, trace s' = (l ++ [SerialPrintln homing_failure_message;
                                DigitalWrite EN_PIN HIGH])%list.
Proof.
  intros Hopen Hp Hf.
  destruct (home_loop_abort
              (Z.to_nat (Z.max 0 (current_position s + 10000)))
              (home_prelude s) fuel Hopen)
    as (s' & E & P & N & T & D & EN & l & L).
  - exact Hp.
  - change (current_position (home_prelude s)) with (current_position s). lia.
  - lia.
  - exists s'. rewrite home_sequence_unfold, E.
    change (current_position (home_prelude s)) with (current_position s) in P.
    change (step_pulses (home_prelude s)) with (step_pulses s) in N.
    change (target_position (home_prelude s)) with (target_position s) in T.
    change (step_delay_us (home_prelude s)) with (step_delay_us s) in D.
    repeat split; try assumption; try lia.
    exists (rev l). unfold trace. rewrite L. simpl.
    now rewrite <- app_assoc.
Qed.

Lemma home_sequence_found (s : State) (fuel k : nat) :
  in_long (current_position s) ->
  (k = 0%nat \/ -10000 <= current_position s - Z.of_nat k) ->
  (forall i, (i < k)%nat -> LIMIT (limit_reads s + i) = HIGH) ->
  LIMIT (limit_reads s + k) = LOW ->
  (k < fuel)%nat ->
  exists s',
    home_sequence LIMIT fuel s = Some s' /\
    current_position s' = 0 /\
    target_position s' = 0 /\
    en_level s' = HIGH /\
    step_pulses s' = step_pulses s + Z.of_nat k /\
    step_delay_us s' = step_delay_us s /\
    exists l, trace s' = (l ++ [SerialPrintln home_found_message;
                                DigitalWrite EN_PIN HIGH])%list.
Proof.
  intros Hp Hb Hopen Hclosed Hf.
  destruct (home_loop_found k (home_prelude s) fuel) as (s1 & E & P & N & D);
    try assumption.
  rewrite home_sequence_unfold, E.
  change (step_pulses (home_prelude s)) with (step_pulses s) in N.
  change (step_delay_us (home_prelude s)) with (step_delay_us s) in D.
  eexists. split; [reflexivity|].
  repeat split; try assumption.
  exists (rev (log s1)). trace_norm. reflexivity.
Qed.

(** Whatever the switch does, the loop keeps the step delay, leaves a
    [long] in the position, and its [return] leaves the motor disabled. *)
Lemma home_loop_inv (fuel : nat) : forall (s : State) (r : LoopExit),
  in_long (current_position s) ->
  home_loop LIMIT fuel s = Some r ->
  in_long (current_position (exit_state r)) /\
  step_delay_us (exit_state r) = step_delay_us s /\
  match r with
  | Returned s' => en_level s' = HIGH
  | Fallthrough _ => True
  end.
Proof.
  induction fuel as [|fuel IH]; intros s r Hp H; [discriminate|].
  destruct (LIMIT (limit_reads s)) eqn:L.
  - rewrite home_loop_closed in H by assumption.
    injection H as <-. repeat split; apply Hp.
  - rewrite home_loop_open in H by assumption.
    destruct (home_next_frame s) as (P & _ & D & _).
    assert (Hn : in_long (current_position (home_next LIMIT s)))
      by (rewrite P; apply to_long_in_long).
    destruct (current_position (home_next LIMIT s) <? -10000).
    + injection H as <-. cbn [exit_state].
      destruct (report_and_disable_frame homing_failure_message
                  (home_next LIMIT s)) as (P1 & _ & _ & D1 & E1 & _).
      rewrite P1, D1, E1. split; [exact Hn|]. split; [exact D | reflexivity].
    + destruct (IH _ _ Hn H) as (A & B & C).
      split; [exact A|]. split; [now rewrite B | exact C].
Qed.

Lemma home_loop_fuel_mono (fuel : nat) : forall (s : State) (r : LoopExit) (fuel' : nat),
  home_loop LIMIT fuel s = Some r ->
  (fuel <= fuel')%nat ->
  home_loop LIMIT fuel' s = Some r.
Proof.
  induction fuel as [|fuel IH]; intros s r fuel' H Hle; [discriminate|].
  destruct fuel' as [|fuel']; [lia|].
  destruct (LIMIT (limit_reads s)) eqn:L.
  - rewrite home_loop_closed in * by assumption. exact H.
  - rewrite home_loop_open in * by assumption.
    destruct (current_position (home_next LIMIT s) <? -10000); [exact H|].
    apply IH; [exact H | lia].
Qed.

(** The loop is left within [home_bound] evaluations of its condition,
    whatever the switch does. *)
Lemma home_loop_terminates (fuel : nat) : forall s : State,
  in_long (current_position s) ->
  home_bound (current_position s) <= Z.of_nat fuel ->
  exists r, home_loop LIMIT fuel s = Some r.
Proof.
  induction fuel as [|fuel IH]; intros s Hp Hb.
  - exfalso. unfold home_bound in Hb.
    destruct (current_position s =? LONG_MIN); simpl in Hb; lia.
  - destruct (LIMIT (limit_reads s)) eqn:L.
    + rewrite home_loop_closed by assumption. now eexists.
    + rewrite home_loop_open by assumption.
      destruct (home_next_frame s) as (P & _).
      destruct (current_position (home_next LIMIT s) <? -10000) eqn:B;
        [now eexists|].
      apply Z.ltb_ge in B. apply IH.
      * rewrite P. apply to_long_in_long.
      * revert Hb B. rewrite P. unfold home_bound.
        change (2 ^ 31) with 2147483648.
        destruct (Z.eqb_spec (current_position s) LONG_MIN) as [E|N].
        { rewrite E. change (to_long (LONG_MIN - 1)) with LONG_MAX.
          change (LONG_MAX =? LONG_MIN) with false.
          unfold LONG_MAX. change (2 ^ 31) with 2147483648. lia. }
        { assert (E1 : to_long (current_position s - 1) = current_position s - 1)
            by (apply to_long_id; unfold_long; lia).
          rewrite E1.
          destruct (Z.eqb_spec (current_position s - 1) LONG_MIN); unfold_long; lia. }
Qed.

Lemma home_sequence_inv (fuel : nat) (s s' : State) :
  in_long (current_position s) ->
  home_sequence LIMIT fuel s = Some s' ->
  in_long (current_position s') /\
  step_delay_us s' = step_delay_us s /\
  en_level s' = HIGH.
Proof.
  intros Hp H. rewrite home_sequence_unfold in H.
  destruct (home_loop LIMIT fuel (home_prelude s)) as [[s1|s1]|] eqn:E;
    [| |discriminate]; injection H as <-;
    destruct (home_loop_inv fuel (home_prelude s) _ Hp E) as (A & B & C).
  - repeat split; try (vm_compute; discriminate). exact B.
  - repeat split; try apply A; assumption.
Qed.

Lemma home_sequence_terminates (fuel : nat) (s : State) :
  in_long (current_position s) ->
  home_bound (current_position s) <= Z.of_nat fuel ->
  exists s', home_sequence LIMIT fuel s = Some s'.
Proof.
  intros Hp Hb. rewrite home_sequence_unfold.
  destruct (home_loop_terminates fuel (home_prelude s) Hp Hb) as ([s1|s1] & E);
    rewrite E; now eexists.
Qed.

Lemma home_sequence_fuel_mono (fuel fuel' : nat) (s s' : State) :
  home_sequence LIMIT fuel s = Some s' ->
  (fuel <= fuel')%nat ->
  home_sequence LIMIT fuel' s = Some s'.
Proof.
  intros H Hle. rewrite home_sequence_unfold in *.
  destruct (home_loop LIMIT fuel (home_prelude s)) as [r|] eqn:E; [|discriminate].
  now rewrite (home_loop_fuel_mono fuel _ r fuel' E Hle).
Qed.

End Homing.

(** C3 (amended).  With the limit switch never active, [home_sequence]
    started at position [p] aborts as soon as a step brings the position
    below -10000: after [p + 10001] steps when [p >= -10000] (10001 steps
    from position 0) and after one step otherwise.  It prints the failure
    message, disables the motor, leaves the position at the value reached
    (below -10000, not 0), and the next lines are handled as usual. *)
Theorem home_sequence_never_active :
  forall (LIMIT : nat -> Level) (fuel : nat) (s : State),
  (forall i, LIMIT i = HIGH) ->
  LONG_MIN < current_position s <= LONG_MAX ->
  Z.max 1 (current_position s + 10001) <= Z.of_nat fuel ->
  exists s',
    home_sequence LIMIT fuel s = Some s' /\
    step_pulses s' - step_pulses s = Z.max 1 (current_position s + 10001) /\
    (current_position s = 0 -> step_pulses s' - step_pulses s = 10001) /\
    current_position s' = Z.min (current_position s - 1) (-10001) /\
    current_position s' < -10000 /\
    target_position s' = target_position s /\
    step_delay_us s' = step_delay_us s /\
    en_level s' = HIGH /\
    (exists l, trace s' = (l ++ [SerialPrintln homing_failure_message;
                                 DigitalWrite EN_PIN HIGH])%list) /\
    (forall rest, run LIMIT fuel ("HOME" :: rest) s = run LIMIT fuel rest s').
Proof.
  intros LIMIT fuel s Hopen Hp Hf.
  destruct (home_sequence_abort LIMIT s fuel Hopen Hp Hf)
    as (s' & E & N & P & T & D & EN & L).
  exists s'. repeat split; try assumption; try lia.
  intros rest. cbn [run].
  change (loop LIMIT fuel (Some "HOME") s) with (home_sequence LIMIT fuel s).
  now rewrite E.
Qed.

Lemma home_sequence_never_active_witness :
  exists s',
    home_sequence never_active (Z.to_nat 10001) init = Some s' /\
    step_pulses s' - step_pulses init = 10001 /\
    current_position s' = -10001 /\
    en_level s' = HIGH.
Proof.
  assert (Hopen : forall i, never_active i = HIGH) by reflexivity.
  assert (Hp : LONG_MIN < current_position init <= LONG_MAX)
    by (vm_compute; split; [reflexivity | discriminate]).
  assert (Hf : Z.max 1 (current_position init + 10001)
               <= Z.of_nat (Z.to_nat 10001))
    by (vm_compute; discriminate).
  destruct (home_sequence_never_active never_active (Z.to_nat 10001) init
              Hopen Hp Hf)
    as (s' & E & _ & N & P & _ & _ & _ & EN & _).
  exists s'. split; [exact E|]. split; [apply N; reflexivity|].
  split; [exact P | exact EN].
Defined.

(** C3 as stated fails when homing does not start at position 0: from
    position 400 the abort comes after 10401 steps. *)
Lemma home_from_400_takes_10401_steps :
  handle_command never_active 0 "MOVE 400" init = Some at_400 /\
  current_position at_400 = 400 /\
  option_map (fun s' => (step_pulses s' - step_pulses at_400, current_position s'))
             (home_sequence never_active (Z.to_nat 20000) at_400)
    = Some (10401, -10001) /\
  10401 <> 10001.
Proof.
  split; [reflexivity|]. split; [vm_compute; reflexivity|].
  split; [vm_compute; reflexivity | discriminate].
Qed.

(** C6.  When the limit switch is seen active after [k] steps, and the
    position has stayed at -10000 or above, [home_sequence] stops
    stepping, sets the position and the target to 0, reports
    "Home found. Position reset to 0." and disables the motor. *)
Theorem home_sequence_finds_switch :
  forall (LIMIT : nat -> Level) (fuel k : nat) (s : State),
  in_long (current_position s) ->
  (k = 0%nat \/ -10000 <= current_position s - Z.of_nat k) ->
  (forall i, (i < k)%nat -> LIMIT (limit_reads s + i)%nat = HIGH) ->
  LIMIT (limit_reads s + k)%nat = LOW ->
  (k < fuel)%nat ->
  exists s',
    home_sequence LIMIT fuel s = Some s' /\
    current_position s' = 0 /\
    target_position s' = 0 /\
    en_level s' = HIGH /\
    step_pulses s' = step_pulses s + Z.of_nat k /\
    step_delay_us s' = step_delay_us s /\
    exists l, trace s' = (l ++ [SerialPrintln home_found_message;
                                DigitalWrite EN_PIN HIGH])%list.
Proof.
  intros LIMIT fuel k s. apply home_sequence_found.
Qed.

Lemma home_sequence_finds_switch_witness :
  exists s',
    home_sequence (active_after 5) 6 init = Some s' /\
    current_position s' = 0 /\
    target_position s' = 0 /\
    en_level s' = HIGH /\
    step_pulses s' = step_pulses init + 5.
Proof.
  destruct (home_sequence_finds_switch (active_after 5) 6 5 init)
    as (s' & E & P & T & EN & N & _).
  - vm_compute. split; discriminate.
  - right. vm_compute. discriminate.
  - intros i Hi. change (limit_reads init + i)%nat with i.
    unfold active_after. apply Nat.ltb_lt in Hi. now rewrite Hi.
  - reflexivity.
  - lia.
  - exists s'. repeat split; assumption.
Defined.

(** *** Status *)

Lemma status_revs_truncates (s : State) :
  status_revs s = truncate_toward_zero (current_position s) STEPS_PER_REV.
Proof.
  unfold status_revs, truncate_toward_zero. apply Z.quot_div. discriminate.
Qed.

Lemma status_rem_keeps_sign (p : Z) :
  Z.rem p STEPS_PER_REV = sign_preserving_mod p STEPS_PER_REV.
Proof. unfold sign_preserving_mod. apply Z.rem_mod. discriminate. Qed.

Lemma rem_in_values (p : Z) : In (Z.rem p STEPS_PER_REV) rem_values.
Proof.
  unfold rem_values. apply in_map_iff.
  exists (Z.to_nat (Z.rem p STEPS_PER_REV + 199)).
  assert (B : -200 < Z.rem p STEPS_PER_REV < 200).
  { change STEPS_PER_REV with 200. Z.to_euclidean_division_equations. lia. }
  split; [lia|]. apply in_seq. lia.
Qed.

Lemma degrees_close_on_values :
  forallb (fun r => Qle_bool (Qabs (degrees_of_rem r - inject_Z r * (9 # 5)))
                             (1 # 40000)) rem_values = true.
Proof. vm_compute. reflexivity. Qed.

Lemma degrees_rendering_on_values :
  forallb (fun r => rendering_eqb (printFloat (degrees_of_rem r) 1)
                                  (exact_tenths r)) rem_values = true.
Proof. vm_compute. reflexivity. Qed.

Lemma rendering_eqb_sound (a b : bool * Z * list Z) :
  rendering_eqb a b = true -> a = b.
Proof.
  destruct a as [[n1 i1] l1], b as [[n2 i2] l2]. unfold rendering_eqb.
  destruct l1 as [|d1 [|? ?]]; try discriminate.
  destruct l2 as [|d2 [|? ?]]; try discriminate.
  intros H. apply andb_prop in H. destruct H as [H H3].
  apply andb_prop in H. destruct H as [H1 H2].
  apply Bool.eqb_prop in H1. apply Z.eqb_eq in H2, H3. now subst.
Qed.

(** C7.  [print_status] reports the position, the revolutions (the
    position divided by 200, truncated toward zero), the angle and the step
    delay, and changes nothing but the serial output.  The angle is the
    remainder of the position by 200, with the sign of the position, times
    360/200, in the sketch's floating point: the remainder is exact, the
    factor and the product are rounded to binary32, and the result lies
    within 1/40000 of a degree of the exact product. *)
Theorem print_status_report : forall s : State,
  let p := current_position s in
  let r := sign_preserving_mod p STEPS_PER_REV in
  let s' := print_status s in
  same_motor_state s s' /\
  status_revs s = truncate_toward_zero p STEPS_PER_REV /\
  status_degrees s =
    Binary32.mul (Binary32.of_Z r)
      (Binary32.div (Binary32.round 360) (Binary32.of_Z STEPS_PER_REV)) /\
  (Qabs (status_degrees s - inject_Z r * (360 / inject_Z STEPS_PER_REV))
   <= 1 # 40000)%Q /\
  (Z.abs (status_revs s * STEPS_PER_REV) <= Z.abs p /\
   0 <= r * p /\
   Z.abs r < STEPS_PER_REV) /\
  trace s' =
    (trace s ++
     [SerialPrintln (nl ++ "--- Motor Status ---");
      SerialPrint "  Position (steps)  : "; SerialPrintlnNum p;
      SerialPrint "  Position (revs)   : "; SerialPrintlnNum (status_revs s);
      SerialPrint "  Angle             : "; SerialPrintFloat (status_degrees s) 1;
      SerialPrintln "°";
      SerialPrint "  Step delay        : "; SerialPrintNum (step_delay_us s);
      SerialPrintln " us";
      SerialPrintln ("--------------------" ++ nl)])%list.
Proof.
  intros s p r s'. subst p r s'.
  split; [repeat split|].
  split; [apply status_revs_truncates|].
  rewrite <- status_rem_keeps_sign.
  split; [reflexivity|].
  split.
  { pose proof degrees_close_on_values as H.
    rewrite forallb_forall in H.
    specialize (H _ (rem_in_values (current_position s))).
    apply Qle_bool_iff in H.
    change (status_degrees s)
      with (degrees_of_rem (Z.rem (current_position s) STEPS_PER_REV)).
    assert (E : (360 / inject_Z STEPS_PER_REV == 9 # 5)%Q) by reflexivity.
    now rewrite E. }
  split.
  { unfold status_revs. change STEPS_PER_REV with 200.
    generalize (current_position s). intros p.
    Z.to_euclidean_division_equations. lia. }
  trace_norm. reflexivity.
Qed.

(** The text that [Serial.print(degrees, 1)] produces is the exact product
    of the remainder and 1.8 with its one digit after the point: the
    rounding of the floating point operations never reaches the digit. *)
Lemma status_angle_text (s : State) :
  printFloat (status_degrees s) 1
  = exact_tenths (Z.rem (current_position s) STEPS_PER_REV).
Proof.
  pose proof degrees_rendering_on_values as H.
  rewrite forallb_forall in H.
  apply rendering_eqb_sound.
  exact (H _ (rem_in_values (current_position s))).
Qed.

(** The status of the README session, a negative position, and the first
    position whose angle is not a binary32 number. *)
Example status_at_400_and_minus_250 :
  let s := set_current_position 400 init in
  let t := set_current_position (-250) init in
  let u := set_current_position 1 init in
  status_revs s = 2 /\ status_degrees s = 0%Q /\ step_delay_us s = 1500 /\
  printFloat (status_degrees s) 1 = (false, 0, [0]) /\
  status_revs t = -1 /\ status_degrees t = (- 90)%Q /\
  printFloat (status_degrees t) 1 = (true, 90, [0]) /\
  status_degrees u = (7549747 # 4194304)%Q /\
  printFloat (status_degrees u) 1 = (false, 1, [8]).
Proof. cbv zeta. repeat split; vm_compute; reflexivity. Qed.

(** *** The command loop *)

Lemma move_to_frame (target : Z) (s : State) :
  in_long (current_position s) ->
  in_long (current_position (move_to target s)) /\
  step_delay_us (move_to target s) = step_delay_us s /\
  target_position (move_to target s) = target_position s.
Proof.
  intros Hp.
  destruct (Z.eq_dec (to_long (target - current_position s)) 0) as [E|N].
  - unfold move_to.
    change (current_position (enable_motor s)) with (current_position s).
    rewrite E. repeat split; apply Hp.
  - destruct (move_to_nonzero target s N) as (s1 & P & T & D & _ & _ & E).
    cbv zeta in E. rewrite E.
    change (current_position (disable_motor ?x)) with (current_position x).
    change (step_delay_us (disable_motor ?x)) with (step_delay_us x).
    change (target_position (disable_motor ?x)) with (target_position x).
    cbn [Serial_println_num Serial_print emit current_position step_delay_us
         target_position].
    destruct (move_loop_frame
                (Z.to_nat (abs (to_long (target - current_position s))))
                (to_long (target - current_position s)) s1)
      as (T' & D' & _).
    rewrite T', D', T, D.
    rewrite move_loop_position by (rewrite P; exact Hp).
    split; [|split; reflexivity].
    destruct (0 <? _); apply to_long_in_long.
Qed.

Lemma Some_inj {A : Type} (x y : A) : Some x = Some y -> x = y.
Proof. congruence. Qed.

Section CommandLoop.

Variable LIMIT : nat -> Level.

(** Every command keeps the invariant of the data model. *)
Lemma handle_command_wf (fuel : nat) (cmd : string) (s s' : State) :
  wf s -> handle_command LIMIT fuel cmd s = Some s' -> wf s'.
Proof.
  intros [Hp Hd] H. unfold handle_command in H.
  destruct (startsWith cmd "MOVE ").
  { apply Some_inj in H; subst s'. unfold wf, move_relative. cbv zeta.
    destruct (move_to_frame (to_long (current_position s + toInt (substring 5 cmd))) s Hp)
      as (A & B & _).
    split; [exact A | now rewrite B]. }
  destruct (startsWith cmd "GOTO ").
  { apply Some_inj in H; subst s'. unfold wf.
    destruct (move_to_frame (toInt (substring 5 cmd)) s Hp) as (A & B & _).
    split; [exact A | now rewrite B]. }
  destruct (String.eqb cmd "HOME").
  { destruct (home_sequence_inv LIMIT fuel s s' Hp H) as (A & B & _).
    unfold wf. split; [exact A | now rewrite B]. }
  destruct (startsWith cmd "SPEED ").
  { destruct ((MIN_DELAY_US <=? to_int (toInt (substring 6 cmd)))
              && (to_int (toInt (substring 6 cmd)) <=? MAX_DELAY_US)) eqn:R;
      apply Some_inj in H; subst s'.
    - apply andb_prop in R. destruct R as [Lo Hi].
      apply Z.leb_le in Lo, Hi. split; [exact Hp|]. split; assumption.
    - split; assumption. }
  destruct (String.eqb cmd "STATUS"); apply Some_inj in H; subst s'; split; assumption.
Qed.

(** After a command the motor is disabled, if it was before, on every path
    but the no-op move. *)
Lemma en_level_after_command (fuel : nat) (cmd : string) (s s' : State) :
  in_long (current_position s) ->
  en_level s = HIGH ->
  handle_command LIMIT fuel cmd s = Some s' ->
  en_level s' = HIGH \/
  exists target, s' = move_to target s /\ target = current_position s.
Proof.
  intros Hp He H. unfold handle_command in H.
  assert (M : forall target, in_long target ->
            en_level (move_to target s) = HIGH \/
            exists t, move_to target s = move_to t s /\ t = current_position s).
  { intros target Ht.
    destruct (Z.eq_dec (to_long (target - current_position s)) 0) as [E|N].
    - right. exists target. split; [reflexivity|]. long_arith.
    - left. now apply move_to_en_level. }
  destruct (startsWith cmd "MOVE ").
  { apply Some_inj in H; subst s'. apply M, to_long_in_long. }
  destruct (startsWith cmd "GOTO ").
  { apply Some_inj in H; subst s'.
    destruct (Z.eq_dec (to_long (toInt (substring 5 cmd) - current_position s)) 0)
      as [E|N].
    - right. exists (current_position s). split; [|reflexivity].
      unfold move_to.
      change (current_position (enable_motor s)) with (current_position s).
      rewrite E, Z.sub_diag, to_long_0. reflexivity.
    - left. now apply move_to_en_level. }
  destruct (String.eqb cmd "HOME").
  { left. now destruct (home_sequence_inv LIMIT fuel s s' Hp H) as (_ & _ & C). }
  destruct (startsWith cmd "SPEED ").
  { left.
    destruct ((MIN_DELAY_US <=? to_int (toInt (substring 6 cmd)))
              && (to_int (toInt (substring 6 cmd)) <=? MAX_DELAY_US));
      apply Some_inj in H; subst s'; exact He. }
  left. destruct (String.eqb cmd "STATUS"); apply Some_inj in H; subst s'; exact He.
Qed.

Lemma handle_command_fuel_mono (fuel fuel' : nat) (cmd : string) (s s' : State) :
  handle_command LIMIT fuel cmd s = Some s' ->
  (fuel <= fuel')%nat ->
  handle_command LIMIT fuel' cmd s = Some s'.
Proof.
  unfold handle_command. intros H Hle.
  destruct (startsWith cmd "MOVE "); [exact H|].
  destruct (startsWith cmd "GOTO "); [exact H|].
  destruct (String.eqb cmd "HOME"); [|exact H].
  now apply (home_sequence_fuel_mono LIMIT fuel fuel').
Qed.

(** Every command returns: only HOME loops without a counter, and its loop
    is bounded by [home_bound]. *)
Lemma handle_command_terminates (cmd : string) (s : State) :
  wf s ->
  exists fuel s', handle_command LIMIT fuel cmd s = Some s' /\ wf s'.
Proof.
  intros W.
  set (fuel := Z.to_nat (home_bound (current_position s))).
  assert (E : exists s', handle_command LIMIT fuel cmd s = Some s').
  { unfold handle_command.
    destruct (startsWith cmd "MOVE "); [now eexists|].
    destruct (startsWith cmd "GOTO "); [now eexists|].
    destruct (String.eqb cmd "HOME").
    - apply home_sequence_terminates; [apply W|]. subst fuel.
      rewrite Z2Nat.id; [lia|]. unfold home_bound.
      destruct (current_position s =? LONG_MIN); simpl; lia.
    - destruct (startsWith cmd "SPEED ").
      + destruct (_ && _); now eexists.
      + destruct (String.eqb cmd "STATUS"); now eexists. }
  destruct E as (s' & E). exists fuel, s'. split; [exact E|].
  exact (handle_command_wf fuel cmd s s' W E).
Qed.

Lemma run_fuel_mono (lines : list string) : forall (fuel fuel' : nat) (s s' : State),
  run LIMIT fuel lines s = Some s' ->
  (fuel <= fuel')%nat ->
  run LIMIT fuel' lines s = Some s'.
Proof.
  induction lines as [|line rest IH]; intros fuel fuel' s s' H Hle.
  - exact H.
  - cbn [run loop] in *.
    destruct (handle_command LIMIT fuel (toUpperCase (trim line)) s) as [s1|] eqn:E;
      [|discriminate].
    rewrite (handle_command_fuel_mono fuel fuel' _ s s1 E Hle).
    now apply (IH fuel fuel').
Qed.

(** The command loop has no fatal condition: from a state that satisfies
    the invariant, every sequence of lines is handled to the end. *)
Lemma run_terminates (lines : list string) : forall s : State,
  wf s ->
  exists fuel s', run LIMIT fuel lines s = Some s' /\ wf s'.
Proof.
  induction lines as [|line rest IH]; intros s W.
  - exists 0%nat, s. split; [reflexivity | exact W].
  - destruct (handle_command_terminates (toUpperCase (trim line)) s W)
      as (f1 & s1 & E1 & W1).
    destruct (IH s1 W1) as (f2 & s2 & E2 & W2).
    exists (Nat.max f1 f2), s2. split; [|exact W2].
    cbn [run loop].
    rewrite (handle_command_fuel_mono f1 (Nat.max f1 f2) _ s s1 E1 (Nat.le_max_l _ _)).
    apply (run_fuel_mono rest f2); [exact E2 | apply Nat.le_max_r].
Qed.

End CommandLoop.

Lemma wf_init : wf init.
Proof. vm_compute. repeat split; discriminate. Qed.

(** The second of two identical GOTO lines is a no-op move, and it drives
    EN low again. *)
Example second_goto_enables_motor :
  let s1 := move_to 5 init in
  let s2 := move_to 5 s1 in
  en_level s1 = HIGH /\ en_level s2 = LOW /\
  trace s2 = (trace s1 ++ [DigitalWrite EN_PIN LOW; DelayMicroseconds 100;
                           SerialPrintln "Already at target."])%list.
Proof. cbv zeta. split; [|split]; vm_compute; reflexivity. Qed.

(** ** Further properties of the sketch *)

(** *** The waveform of a move *)

Lemma move_body_trace (d : Z) (s : State) :
  trace (move_body d s) = (trace s ++ pulse (step_delay_us s))%list.
Proof.
  unfold move_body. destruct (0 <? d); trace_norm; reflexivity.
Qed.

Lemma move_loop_trace (n : nat) (d : Z) : forall s : State,
  trace (move_loop n d s)
  = (trace s ++ repeat_events n (pulse (step_delay_us s)))%list.
Proof.
  induction n as [|n IH]; intros s.
  - simpl. now rewrite app_nil_r.
  - cbn [move_loop repeat_events]. rewrite IH, move_body_trace.
    destruct (move_body_frame d s) as (_ & D & _). rewrite D.
    now rewrite <- app_assoc.
Qed.

Lemma move_loop_step_level (n : nat) (d : Z) : forall s : State,
  step_level (move_loop n d s) = match n with O => step_level s | S _ => LOW end.
Proof.
  induction n as [|n IH]; intros s; [reflexivity|].
  cbn [move_loop]. rewrite IH. destruct n; [|reflexivity].
  unfold move_body. destruct (0 <? d); reflexivity.
Qed.

Lemma move_to_nonzero_eq (target : Z) (s : State) :
  let d := to_long (target - current_position s) in
  d <> 0 ->
  move_to target s =
  let s2 := move_loop (Z.to_nat (abs d)) d (move_start d s) in
  disable_motor
    (Serial_println_num (current_position s2)
       (Serial_print "Done. Position: " s2)).
Proof.
  intros d Hd. unfold move_to.
  change (current_position (enable_motor s)) with (current_position s).
  fold d. apply Z.eqb_neq in Hd. rewrite Hd. reflexivity.
Qed.

Lemma move_start_frame (d : Z) (s : State) :
  current_position (move_start d s) = current_position s /\
  step_pulses (move_start d s) = step_pulses s /\
  target_position (move_start d s) = target_position s /\
  step_delay_us (move_start d s) = step_delay_us s /\
  en_level (move_start d s) = LOW /\
  dir_level (move_start d s) = (if 0 <? d then HIGH else LOW) /\
  step_level (move_start d s) = step_level s.
Proof. unfold move_start. destruct (0 <? d); repeat split. Qed.

(** The end of an effective move: the report and [disable_motor]. *)
Lemma move_report_frame (n : Z) (s : State) :
  let s' := disable_motor
              (Serial_println_num n (Serial_print "Done. Position: " s)) in
  current_position s' = current_position s /\
  step_pulses s' = step_pulses s /\
  dir_level s' = dir_level s /\
  en_level s' = HIGH /\
  step_level s' = step_level s /\
  target_position s' = target_position s /\
  step_delay_us s' = step_delay_us s.
Proof. repeat split. Qed.

Lemma distance_in_range (target p : Z) :
  LONG_MIN < target - p <= LONG_MAX ->
  to_long (target - p) = target - p.
Proof. intros H. apply to_long_id. unfold_long. lia. Qed.

Lemma abs_in_range (d : Z) :
  LONG_MIN < d <= LONG_MAX -> abs d = Z.abs d.
Proof.
  intros _. unfold abs. destruct (0 <? d) eqn:E.
  - apply Z.ltb_lt in E. lia.
  - apply Z.ltb_ge in E. lia.
Qed.

(** X1.  A move from position [p] to a target other than [p], both [long]s
    and with [-2^31 < target - p < 2^31], ends at the target after exactly
    [|target - p|] step pulses, with DIR high for a forward move and low for
    a backward one, STEP low and the motor disabled; the target variable
    and the step delay are untouched. *)
Theorem move_to_reaches_target : forall (target : Z) (s : State),
  in_long (current_position s) ->
  in_long target ->
  LONG_MIN < target - current_position s <= LONG_MAX ->
  target <> current_position s ->
  let s' := move_to target s in
  current_position s' = target /\
  step_pulses s' = step_pulses s + Z.abs (target - current_position s) /\
  dir_level s' = (if current_position s <? target then HIGH else LOW) /\
  en_level s' = HIGH /\
  step_level s' = LOW /\
  target_position s' = target_position s /\
  step_delay_us s' = step_delay_us s.
Proof.
  intros target s Hp Ht Hd Hne s'. subst s'.
  pose proof (distance_in_range _ _ Hd) as E.
  assert (N : to_long (target - current_position s) <> 0) by (rewrite E; lia).
  split.
  { now apply move_to_position_any. }
  rewrite (move_to_nonzero_eq target s N). cbv zeta. rewrite E.
  set (d := target - current_position s) in *.
  destruct (move_report_frame
              (current_position (move_loop (Z.to_nat (abs d)) d (move_start d s)))
              (move_loop (Z.to_nat (abs d)) d (move_start d s)))
    as (_ & R1 & R2 & R3 & R4 & R5 & R6).
  rewrite R1, R2, R3, R4, R5, R6. clear R1 R2 R3 R4 R5 R6.
  destruct (move_loop_frame (Z.to_nat (abs d)) d (move_start d s))
    as (T & D & _ & DI & _ & N').
  rewrite T, D, DI, N', move_loop_step_level, abs_in_range by assumption.
  destruct (move_start_frame d s) as (_ & S2 & S3 & S4 & _ & S6 & S7).
  rewrite S2, S3, S4, S7.
  rewrite Z2Nat.id by lia.
  assert (Hpos : (0 < Z.to_nat (Z.abs d))%nat) by lia.
  destruct (Z.to_nat (Z.abs d)) as [|m]; [lia|].
  repeat split.
  rewrite S6.
  replace (current_position s <? target) with (0 <? d)
    by (subst d; destruct (Z.ltb_spec 0 (target - current_position s));
        destruct (Z.ltb_spec (current_position s) target); try reflexivity; lia).
  reflexivity.
Qed.

Lemma move_to_reaches_target_witness :
  current_position (move_to (-7) init) = -7 /\
  step_pulses (move_to (-7) init) = step_pulses init + 7 /\
  dir_level (move_to (-7) init) = LOW.
Proof.
  destruct (move_to_reaches_target (-7) init) as (A & B & C & _).
  - vm_compute. split; discriminate.
  - vm_compute. split; discriminate.
  - vm_compute. split; [reflexivity | discriminate].
  - vm_compute. discriminate.
  - repeat split; assumption.
Defined.

(** X2.  The waveform of a move from position [p] to a target other than
    [p], both [long]s and with [-2^31 < target - p < 2^31]: EN low and
    100 us, DIR and 5 us, the announcement, then [|target - p|] pulses (STEP
    high, 10 us, STEP low, the step delay), the final report, and EN
    high. *)
Theorem move_to_waveform : forall (target : Z) (s : State),
  in_long (current_position s) ->
  in_long target ->
  LONG_MIN < target - current_position s <= LONG_MAX ->
  target <> current_position s ->
  let d := target - current_position s in
  trace (move_to target s) =
  (trace s
   ++ [DigitalWrite EN_PIN LOW; DelayMicroseconds 100;
       DigitalWrite DIR_PIN (if 0 <? d then HIGH else LOW);
       DelayMicroseconds 5;
       SerialPrint "Moving "; SerialPrintNum (Z.abs d);
       SerialPrintln (if 0 <? d then " steps FORWARD..."
                      else " steps BACKWARD...")]
   ++ repeat_events (Z.to_nat (Z.abs d)) (pulse (step_delay_us s))
   ++ [SerialPrint "Done. Position: "; SerialPrintlnNum target;
       DigitalWrite EN_PIN HIGH])%list.
Proof.
  intros target s Hp Ht Hd Hne d.
  pose proof (distance_in_range _ _ Hd) as E.
  assert (N : to_long (target - current_position s) <> 0) by (rewrite E; lia).
  assert (P : current_position (move_to target s) = target)
    by (now apply move_to_position_any).
  rewrite (move_to_nonzero_eq target s N) in *. cbv zeta in *.
  rewrite E in *. fold d in P |- *.
  change (current_position (disable_motor (Serial_println_num ?n (Serial_print ?m ?x))))
    with (current_position x) in P.
  rewrite P.
  unfold disable_motor, digitalWrite, Serial_println_num, Serial_print.
  rewrite trace_emit.
  change (trace (set_latch EN_PIN HIGH ?x)) with (trace x).
  rewrite !trace_emit, move_loop_trace, abs_in_range by assumption.
  destruct (move_start_frame d s) as (_ & _ & _ & S4 & _). rewrite S4.
  replace (trace (move_start d s)) with
    (trace s ++ [DigitalWrite EN_PIN LOW; DelayMicroseconds 100;
                 DigitalWrite DIR_PIN (if 0 <? d then HIGH else LOW);
                 DelayMicroseconds 5;
                 SerialPrint "Moving "; SerialPrintNum (Z.abs d);
                 SerialPrintln (if 0 <? d then " steps FORWARD..."
                                else " steps BACKWARD...")])%list.
  2:{ unfold move_start. rewrite abs_in_range by assumption.
      destruct (0 <? d); trace_norm; reflexivity. }
  repeat rewrite <- app_assoc. reflexivity.
Qed.

Lemma move_to_waveform_witness :
  trace (move_to 2 init) =
  (trace init
   ++ [DigitalWrite EN_PIN LOW; DelayMicroseconds 100;
       DigitalWrite DIR_PIN HIGH; DelayMicroseconds 5;
       SerialPrint "Moving "; SerialPrintNum 2;
       SerialPrintln " steps FORWARD..."]
   ++ (pulse 1500 ++ pulse 1500)
   ++ [SerialPrint "Done. Position: "; SerialPrintlnNum 2;
       DigitalWrite EN_PIN HIGH])%list.
Proof.
  assert (H1 : in_long (current_position init)) by (vm_compute; split; discriminate).
  assert (H2 : in_long 2) by (vm_compute; split; discriminate).
  assert (H3 : LONG_MIN < 2 - current_position init <= LONG_MAX)
    by (vm_compute; split; [reflexivity | discriminate]).
  assert (H4 : 2 <> current_position init) by (vm_compute; discriminate).
  exact (move_to_waveform 2 init H1 H2 H3 H4).
Defined.

(** *** More on homing *)

Lemma home_next_trace (LIMIT : nat -> Level) (s : State) :
  trace (home_next LIMIT s)
  = (trace s ++ DigitalRead LIMIT_PIN (LIMIT (limit_reads s))
             :: pulse (step_delay_us s))%list.
Proof. trace_norm. reflexivity. Qed.

Lemma home_loop_found_trace (LIMIT : nat -> Level) (k : nat) :
  forall (s : State) (fuel : nat),
  in_long (current_position s) ->
  (k = 0%nat \/ -10000 <= current_position s - Z.of_nat k) ->
  (forall i, (i < k)%nat -> LIMIT (limit_reads s + i)%nat = HIGH) ->
  LIMIT (limit_reads s + k)%nat = LOW ->
  (k < fuel)%nat ->
  exists s',
    home_loop LIMIT fuel s = Some (Fallthrough s') /\
    trace s' =
    (trace s
     ++ repeat_events k (DigitalRead LIMIT_PIN HIGH :: pulse (step_delay_us s))
     ++ [DigitalRead LIMIT_PIN LOW])%list.
Proof.
  induction k as [|k IH]; intros s fuel Hp Hb Hopen Hclosed Hf;
    (destruct fuel as [|fuel]; [lia|]).
  - rewrite Nat.add_0_r in Hclosed.
    rewrite home_loop_closed by assumption.
    eexists. split; [reflexivity|].
    unfold trace. cbn [digitalRead snd log rev repeat_events app].
    now rewrite Hclosed.
  - destruct Hb as [Hb|Hb]; [discriminate|].
    assert (H0 : LIMIT (limit_reads s) = HIGH)
      by (rewrite <- (Nat.add_0_r (limit_reads s)); apply Hopen; lia).
    rewrite home_loop_open by assumption.
    destruct (home_next_frame LIMIT s) as (P & _ & D & _ & _ & R & _).
    assert (P' : current_position (home_next LIMIT s) = current_position s - 1)
      by (rewrite P; long_arith).
    assert (B : (current_position (home_next LIMIT s) <? -10000) = false)
      by (apply Z.ltb_ge; lia).
    rewrite B.
    destruct (IH (home_next LIMIT s) fuel) as (s' & E & T).
    + rewrite P'. unfold_long. lia.
    + right. lia.
    + intros i Hi. rewrite R.
      replace (S (limit_reads s) + i)%nat with (limit_reads s + S i)%nat by lia.
      apply Hopen. lia.
    + rewrite R.
      replace (S (limit_reads s) + k)%nat with (limit_reads s + S k)%nat by lia.
      exact Hclosed.
    + lia.
    + exists s'. split; [exact E|].
      rewrite T, home_next_trace, H0, D. cbn [repeat_events].
      repeat rewrite <- app_assoc. reflexivity.
Qed.

(** X3.  The waveform of a successful homing: the announcement, EN low and
    100 us, DIR low and 5 us; then the limit switch is read before every
    step, [k] times open, each followed by one pulse; the read that finds
    it closed is followed by the success message and EN high, with no
    further pulse. *)
Theorem home_sequence_waveform :
  forall (LIMIT : nat -> Level) (fuel k : nat) (s : State),
  in_long (current_position s) ->
  (k = 0%nat \/ -10000 <= current_position s - Z.of_nat k) ->
  (forall i, (i < k)%nat -> LIMIT (limit_reads s + i)%nat = HIGH) ->
  LIMIT (limit_reads s + k)%nat = LOW ->
  (k < fuel)%nat ->
  exists s',
    home_sequence LIMIT fuel s = Some s' /\
    trace s' =
    (trace s
     ++ [SerialPrintln "Homing..."; DigitalWrite EN_PIN LOW;
         DelayMicroseconds 100; DigitalWrite DIR_PIN LOW; DelayMicroseconds 5]
     ++ repeat_events k (DigitalRead LIMIT_PIN HIGH :: pulse (step_delay_us s))
     ++ [DigitalRead LIMIT_PIN LOW; SerialPrintln home_found_message;
         DigitalWrite EN_PIN HIGH])%list.
Proof.
  intros LIMIT fuel k s Hp Hb Hopen Hclosed Hf.
  destruct (home_loop_found_trace LIMIT k (home_prelude s) fuel)
    as (s1 & E & T); try assumption.
  rewrite home_sequence_unfold, E. eexists. split; [reflexivity|].
  unfold disable_motor, digitalWrite, Serial_println.
  rewrite trace_emit.
  change (trace (set_latch EN_PIN HIGH ?x)) with (trace x).
  rewrite trace_emit.
  change (trace (set_target_position 0 (set_current_position 0 s1)))
    with (trace s1).
  rewrite T.
  change (step_delay_us (home_prelude s)) with (step_delay_us s).
  replace (trace (home_prelude s)) with
    (trace s ++ [SerialPrintln "Homing..."; DigitalWrite EN_PIN LOW;
                 DelayMicroseconds 100; DigitalWrite DIR_PIN LOW;
                 DelayMicroseconds 5])%list
    by (trace_norm; reflexivity).
  repeat rewrite <- app_assoc. reflexivity.
Qed.

Lemma home_sequence_waveform_witness :
  exists s',
    home_sequence (active_after 1) 2 init = Some s' /\
    trace s' =
    (trace init
     ++ [SerialPrintln "Homing..."; DigitalWrite EN_PIN LOW;
         DelayMicroseconds 100; DigitalWrite DIR_PIN LOW; DelayMicroseconds 5]
     ++ (DigitalRead LIMIT_PIN HIGH :: pulse 1500)
     ++ [DigitalRead LIMIT_PIN LOW; SerialPrintln home_found_message;
         DigitalWrite EN_PIN HIGH])%list.
Proof.
  destruct (home_sequence_waveform (active_after 1) 2 1 init) as (s' & E & T).
  - vm_compute. split; discriminate.
  - right. vm_compute. discriminate.
  - intros i Hi. change (limit_reads init + i)%nat with i.
    unfold active_after. apply Nat.ltb_lt in Hi. now rewrite Hi.
  - reflexivity.
  - lia.
  - exists s'. split; [exact E | exact T].
Defined.

Lemma home_bound_pos (p : Z) : 1 <= home_bound p.
Proof.
  unfold home_bound. destruct (p =? LONG_MIN); [|lia].
  change (2 ^ 31) with 2147483648. lia.
Qed.

Lemma home_bound_next (p : Z) :
  in_long p -> -10000 <= to_long (p - 1) ->
  home_bound (to_long (p - 1)) = home_bound p - 1.
Proof.
  intros Hp B. unfold home_bound. change (2 ^ 31) with 2147483648.
  destruct (Z.eqb_spec p LONG_MIN) as [E|N].
  - rewrite E. change (to_long (LONG_MIN - 1)) with LONG_MAX.
    change (LONG_MAX =? LONG_MIN) with false.
    unfold LONG_MAX. change (2 ^ 31) with 2147483648. lia.
  - assert (E1 : to_long (p - 1) = p - 1) by (apply to_long_id; unfold_long; lia).
    rewrite E1 in *.
    destruct (Z.eqb_spec (p - 1) LONG_MIN); unfold_long; lia.
Qed.

(** What the homing loop keeps and how far it can go, whatever the switch
    does. *)
Lemma home_loop_frame (LIMIT : nat -> Level) (fuel : nat) :
  forall (s : State) (r : LoopExit),
  in_long (current_position s) ->
  home_loop LIMIT fuel s = Some r ->
  0 <= step_pulses (exit_state r) - step_pulses s <= home_bound (current_position s) /\
  target_position (exit_state r) = target_position s /\
  dir_level (exit_state r) = dir_level s /\
  (step_level s = LOW -> step_level (exit_state r) = LOW) /\
  match r with
  | Returned s' => current_position s' < -10000
  | Fallthrough _ => True
  end.
Proof.
  induction fuel as [|fuel IH]; intros s r Hp H; [discriminate|].
  pose proof (home_bound_pos (current_position s)) as Hb.
  destruct (LIMIT (limit_reads s)) eqn:L.
  - rewrite home_loop_closed in H by assumption.
    apply Some_inj in H. subst r. cbn [exit_state digitalRead snd].
    unfold step_pulses. cbn [log count_steps target_position dir_level step_level].
    repeat split; try lia. auto.
  - rewrite home_loop_open in H by assumption.
    destruct (home_next_frame LIMIT s) as (P & T & _ & _ & DI & _ & N).
    assert (SL : step_level (home_next LIMIT s) = LOW) by reflexivity.
    destruct (current_position (home_next LIMIT s) <? -10000) eqn:B.
    + apply Some_inj in H. subst r. cbn [exit_state].
      destruct (report_and_disable_frame homing_failure_message
                  (home_next LIMIT s)) as (P1 & N1 & T1 & _).
      rewrite P1, N1, T1, N, T. apply Z.ltb_lt in B.
      repeat split; try lia; try assumption.
    + apply Z.ltb_ge in B.
      assert (Hn : in_long (current_position (home_next LIMIT s)))
        by (rewrite P; apply to_long_in_long).
      destruct (IH _ _ Hn H) as (A1 & A2 & A3 & A4 & A5).
      rewrite P in A1, B. rewrite (home_bound_next _ Hp B) in A1.
      rewrite A2, A3, T, DI. repeat split; try lia; auto.
Qed.

(** X4.  Homing always stops, whatever the limit switch does: from position
    [p] the loop condition is evaluated at most [home_bound p] times
    ([max 1 (p + 10001)] unless [p] is the most negative [long]) and at most
    that many steps are taken.  It ends either with position and target at
    0, or with the position below -10000 and the target untouched; in both
    cases the motor is disabled and DIR is low. *)
Theorem home_sequence_always_stops : forall (LIMIT : nat -> Level) (s : State),
  in_long (current_position s) ->
  exists s',
    home_sequence LIMIT (Z.to_nat (home_bound (current_position s))) s = Some s' /\
    0 <= step_pulses s' - step_pulses s <= home_bound (current_position s) /\
    ((current_position s' = 0 /\ target_position s' = 0) \/
     (current_position s' < -10000 /\ target_position s' = target_position s)) /\
    en_level s' = HIGH /\
    dir_level s' = LOW.
Proof.
  intros LIMIT s Hp.
  set (fuel := Z.to_nat (home_bound (current_position s))).
  pose proof (home_bound_pos (current_position s)) as Hb.
  destruct (home_loop_terminates LIMIT fuel (home_prelude s) Hp) as (r & E).
  { subst fuel. rewrite Z2Nat.id by lia.
    change (current_position (home_prelude s)) with (current_position s). lia. }
  destruct (home_loop_frame LIMIT fuel (home_prelude s) r Hp E)
    as (A1 & A2 & A3 & _ & A5).
  change (step_pulses (home_prelude s)) with (step_pulses s) in A1.
  change (current_position (home_prelude s)) with (current_position s) in A1.
  change (target_position (home_prelude s)) with (target_position s) in A2.
  change (dir_level (home_prelude s)) with LOW in A3.
  rewrite home_sequence_unfold, E.
  destruct r as [s1|s1]; cbn [exit_state] in *; eexists;
    (split; [reflexivity|]).
  - destruct (report_and_disable_frame home_found_message
                (set_target_position 0 (set_current_position 0 s1)))
      as (P1 & N1 & T1 & _ & E1 & _).
    rewrite N1.
    change (step_pulses (set_target_position 0 (set_current_position 0 s1)))
      with (step_pulses s1).
    split; [exact A1|]. split; [left; split; reflexivity|].
    split; [reflexivity | exact A3].
  - split; [exact A1|]. split; [right; split; assumption|].
    destruct (home_loop_inv LIMIT fuel (home_prelude s) _ Hp E) as (_ & _ & C).
    split; [exact C | exact A3].
Qed.

Lemma home_sequence_always_stops_witness :
  in_long (current_position init) /\
  exists s',
    home_sequence (active_after 3)
      (Z.to_nat (home_bound (current_position init))) init = Some s' /\
    en_level s' = HIGH.
Proof.
  assert (Hp : in_long (current_position init)) by (vm_compute; split; discriminate).
  split; [exact Hp|].
  destruct (home_sequence_always_stops (active_after 3) init Hp)
    as (s' & E & _ & _ & EN & _).
  exists s'. split; [exact E | exact EN].
Defined.

(** X11.  Retrying HOME after a failed homing, with the switch still open
    and a first homing that started above position [-2^31 + 1]: the
    position is already below -10000, so the retry gives up after one
    single step, one position further down. *)
Theorem home_retry_takes_one_step :
  forall (LIMIT : nat -> Level) (fuel1 fuel2 : nat) (s : State),
  (forall i, LIMIT i = HIGH) ->
  LONG_MIN + 1 < current_position s <= LONG_MAX ->
  Z.max 1 (current_position s + 10001) <= Z.of_nat fuel1 ->
  (1 <= fuel2)%nat ->
  exists s1 s2,
    home_sequence LIMIT fuel1 s = Some s1 /\
    home_sequence LIMIT fuel2 s1 = Some s2 /\
    step_pulses s2 - step_pulses s1 = 1 /\
    current_position s2 = current_position s1 - 1 /\
    en_level s2 = HIGH.
Proof.
  intros LIMIT fuel1 fuel2 s Hopen Hp Hf1 Hf2.
  destruct (home_sequence_abort LIMIT s fuel1 Hopen) as (s1 & E1 & _ & P1 & _);
    [lia | exact Hf1 |].
  destruct (home_sequence_abort LIMIT s1 fuel2 Hopen)
    as (s2 & E2 & N2 & P2 & _ & _ & EN2 & _).
  - rewrite P1. unfold_long. lia.
  - rewrite P1. lia.
  - exists s1, s2. repeat split; try assumption.
    + rewrite N2, P1. lia.
    + rewrite P2, P1. lia.
Qed.

Lemma home_retry_takes_one_step_witness :
  exists s1 s2,
    home_sequence never_active (Z.to_nat 10001) init = Some s1 /\
    home_sequence never_active 1 s1 = Some s2 /\
    step_pulses s2 - step_pulses s1 = 1 /\
    current_position s2 = current_position s1 - 1.
Proof.
  destruct (home_retry_takes_one_step never_active (Z.to_nat 10001) 1 init)
    as (s1 & s2 & E1 & E2 & N & P & _).
  - reflexivity.
  - vm_compute. split; [reflexivity | discriminate].
  - vm_compute. discriminate.
  - lia.
  - exists s1, s2. split; [exact E1|]. split; [exact E2|].
    split; [exact N | exact P].
Defined.

(** *** What each command keeps *)

Lemma move_to_cases (target : Z) (s : State) :
  let d := to_long (target - current_position s) in
  (d = 0 /\
   move_to target s = Serial_println "Already at target." (enable_motor s))
  \/
  (d <> 0 /\
   move_to target s =
   let s2 := move_loop (Z.to_nat (abs d)) d (move_start d s) in
   disable_motor
     (Serial_println_num (current_position s2)
        (Serial_print "Done. Position: " s2))).
Proof.
  intros d. destruct (Z.eq_dec d 0) as [E|N].
  - left. split; [exact E|]. unfold move_to.
    change (current_position (enable_motor s)) with (current_position s).
    fold d. now rewrite E.
  - right. split; [exact N|]. now apply move_to_nonzero_eq.
Qed.

Lemma move_start_limit_reads (d : Z) (s : State) :
  limit_reads (move_start d s) = limit_reads s.
Proof. unfold move_start. destruct (0 <? d); reflexivity. Qed.

(** A move writes neither the target variable nor the step delay, does not
    read the limit switch, and leaves STEP low if it was. *)
Lemma move_to_keeps (target : Z) (s : State) :
  target_position (move_to target s) = target_position s /\
  step_delay_us (move_to target s) = step_delay_us s /\
  limit_reads (move_to target s) = limit_reads s /\
  (step_level s = LOW -> step_level (move_to target s) = LOW).
Proof.
  destruct (move_to_cases target s) as [[_ E]|[_ E]]; cbv zeta in E; rewrite E.
  - repeat split. auto.
  - set (d := to_long (target - current_position s)).
    destruct (move_report_frame
                (current_position (move_loop (Z.to_nat (abs d)) d (move_start d s)))
                (move_loop (Z.to_nat (abs d)) d (move_start d s)))
      as (_ & _ & _ & _ & R5 & R6 & R7).
    rewrite R5, R6, R7.
    change (limit_reads (disable_motor (Serial_println_num ?n (Serial_print ?m ?x))))
      with (limit_reads x).
    destruct (move_loop_frame (Z.to_nat (abs d)) d (move_start d s))
      as (T & D & _ & _ & L & _).
    destruct (move_start_frame d s) as (_ & _ & S3 & S4 & _ & _ & S7).
    rewrite T, D, L, S3, S4, move_start_limit_reads, move_loop_step_level.
    repeat split. intros H. destruct (Z.to_nat (abs d)); [|reflexivity].
    now rewrite S7.
Qed.

Ltac dispatch H cmd :=
  unfold handle_command in H;
  destruct (startsWith cmd "MOVE ") eqn:?M;
  [| destruct (startsWith cmd "GOTO ") eqn:?G;
     [| destruct (String.eqb_spec cmd "HOME");
        [| destruct (startsWith cmd "SPEED ") eqn:?SP;
           [ destruct (_ && _) eqn:?R | destruct (String.eqb cmd "STATUS") ]]]].

(** X14.  No command writes [target_position] except a successful HOME,
    which sets it to 0 together with the position: MOVE and GOTO never
    record the target they are given. *)
Theorem target_position_only_reset_by_home :
  forall (LIMIT : nat -> Level) (fuel : nat) (cmd : string) (s s' : State),
  in_long (current_position s) ->
  handle_command LIMIT fuel cmd s = Some s' ->
  target_position s' = target_position s \/
  (cmd = "HOME" /\ target_position s' = 0 /\ current_position s' = 0).
Proof.
  intros LIMIT fuel cmd s s' Hp H. dispatch H cmd;
    try (apply Some_inj in H; subst s'; left;
         first [ apply move_to_keeps | reflexivity ]).
  rewrite home_sequence_unfold in H.
  destruct (home_loop LIMIT fuel (home_prelude s)) as [[s1|s1]|] eqn:E;
    [| |discriminate]; apply Some_inj in H; subst s'.
  - right. repeat split. assumption.
  - left. now destruct (home_loop_frame LIMIT fuel (home_prelude s) _ Hp E)
      as (_ & T & _).
Qed.

Lemma target_position_only_reset_by_home_witness :
  exists s',
    handle_command never_active 0 "GOTO 3" init = Some s' /\
    current_position s' = 3 /\
    target_position s' = target_position init.
Proof.
  eexists. split; [vm_compute; reflexivity|]. split; [vm_compute; reflexivity|].
  destruct (target_position_only_reset_by_home never_active 0 "GOTO 3" init _
              ltac:(vm_compute; split; discriminate) eq_refl)
    as [T|(C & _)]; [exact T | discriminate C].
Defined.

(** X15.  STEP idles low: a command that starts with STEP low ends with
    STEP low. *)
Theorem step_line_idles_low :
  forall (LIMIT : nat -> Level) (fuel : nat) (cmd : string) (s s' : State),
  in_long (current_position s) ->
  step_level s = LOW ->
  handle_command LIMIT fuel cmd s = Some s' ->
  step_level s' = LOW.
Proof.
  intros LIMIT fuel cmd s s' Hp Hs H. dispatch H cmd;
    try (apply Some_inj in H; subst s';
         first [ now apply move_to_keeps | exact Hs ]).
  rewrite home_sequence_unfold in H.
  destruct (home_loop LIMIT fuel (home_prelude s)) as [[s1|s1]|] eqn:E;
    [| |discriminate]; apply Some_inj in H; subst s';
    destruct (home_loop_frame LIMIT fuel (home_prelude s) _ Hp E)
      as (_ & _ & _ & S & _); apply S; exact Hs.
Qed.

Lemma step_line_idles_low_witness :
  step_level init = LOW /\
  exists s', handle_command never_active 0 "MOVE 2" init = Some s' /\
             step_level s' = LOW.
Proof.
  split; [reflexivity|]. eexists. split; [vm_compute; reflexivity|].
  apply (step_line_idles_low never_active 0 "MOVE 2" init).
  - vm_compute. split; discriminate.
  - reflexivity.
  - vm_compute. reflexivity.
Defined.

(** X13.  Only HOME looks at the limit switch: every other line has the
    same effect whatever the switch does, and reads LIMIT_PIN not once; a
    MOVE or GOTO is not stopped by the switch. *)
Theorem only_home_reads_limit_switch :
  forall (L1 L2 : nat -> Level) (fuel1 fuel2 : nat) (cmd : string) (s : State),
  cmd <> "HOME" ->
  handle_command L1 fuel1 cmd s = handle_command L2 fuel2 cmd s /\
  forall s', handle_command L1 fuel1 cmd s = Some s' ->
             limit_reads s' = limit_reads s.
Proof.
  intros L1 L2 fuel1 fuel2 cmd s Hne. split.
  - unfold handle_command.
    destruct (startsWith cmd "MOVE "); [reflexivity|].
    destruct (startsWith cmd "GOTO "); [reflexivity|].
    destruct (String.eqb_spec cmd "HOME"); [contradiction | reflexivity].
  - intros s' H. dispatch H cmd; try contradiction;
      apply Some_inj in H; subst s';
      first [ apply move_to_keeps | reflexivity ].
Qed.

Lemma only_home_reads_limit_switch_witness :
  handle_command never_active 0 "MOVE 3" init
  = handle_command (active_after 0) 5 "MOVE 3" init.
Proof.
  apply (only_home_reads_limit_switch never_active (active_after 0) 0 5
           "MOVE 3" init).
  discriminate.
Defined.

Lemma move_to_zero_frame (s : State) :
  let s' := Serial_println "Already at target." (enable_motor s) in
  en_level s' = LOW /\
  current_position s' = current_position s /\
  step_pulses s' = step_pulses s.
Proof. repeat split. Qed.

(** X12.  Every command ends with the motor disabled if it started so,
    with one exception: a MOVE or GOTO over a distance of zero, which takes
    no step, keeps the position and returns with EN low. *)
Theorem motor_disabled_after_command :
  forall (LIMIT : nat -> Level) (fuel : nat) (cmd : string) (s s' : State),
  in_long (current_position s) ->
  en_level s = HIGH ->
  handle_command LIMIT fuel cmd s = Some s' ->
  en_level s' = HIGH \/
  (en_level s' = LOW /\
   (startsWith cmd "MOVE " = true \/ startsWith cmd "GOTO " = true) /\
   current_position s' = current_position s /\
   step_pulses s' = step_pulses s).
Proof.
  intros LIMIT fuel cmd s s' Hp He H.
  assert (Mv : forall target,
            en_level (move_to target s) = HIGH \/
            (en_level (move_to target s) = LOW /\
             current_position (move_to target s) = current_position s /\
             step_pulses (move_to target s) = step_pulses s)).
  { intros target.
    destruct (move_to_cases target s) as [[_ E]|[N _]].
    - right. rewrite E. apply move_to_zero_frame.
    - left. now apply move_to_en_level. }
  dispatch H cmd; try (apply Some_inj in H; subst s').
  - unfold move_relative. cbv zeta.
    destruct (Mv (to_long (current_position s + toInt (substring 5 cmd))))
      as [A|A]; [now left | right; tauto].
  - destruct (Mv (toInt (substring 5 cmd))) as [A|A]; [now left | right; tauto].
  - left. now destruct (home_sequence_inv LIMIT fuel s s' Hp H) as (_ & _ & C).
  - left. exact He.
  - left. exact He.
  - left. exact He.
  - left. exact He.
Qed.

Lemma motor_disabled_after_command_witness :
  en_level init = HIGH /\
  exists s', handle_command never_active 0 "MOVE 4" init = Some s' /\
             en_level s' = HIGH.
Proof.
  split; [reflexivity|]. eexists. split; [vm_compute; reflexivity|].
  destruct (motor_disabled_after_command never_active 0 "MOVE 4" init _
              ltac:(vm_compute; split; discriminate) eq_refl
              ltac:(vm_compute; reflexivity))
    as [A|(A & _)]; [exact A | discriminate A].
Defined.

(** X9.  HOME and STATUS are matched exactly: followed by anything at all
    they are unknown commands. *)
Theorem home_and_status_take_no_argument :
  forall (LIMIT : nat -> Level) (fuel : nat) (c : ascii) (r : string) (s : State),
  replies_unknown (handle_command LIMIT fuel ("HOME" ++ String c r) s) s /\
  replies_unknown (handle_command LIMIT fuel ("STATUS" ++ String c r) s) s.
Proof.
  intros LIMIT fuel c r s. split.
  - unfold handle_command.
    change (startsWith ("HOME" ++ String c r) "MOVE ") with false.
    change (startsWith ("HOME" ++ String c r) "GOTO ") with false.
    change (startsWith ("HOME" ++ String c r) "SPEED ") with false.
    change (String.eqb ("HOME" ++ String c r) "HOME") with false.
    change (String.eqb ("HOME" ++ String c r) "STATUS") with false.
    apply unknown_reply.
  - unfold handle_command.
    change (startsWith ("STATUS" ++ String c r) "MOVE ") with false.
    change (startsWith ("STATUS" ++ String c r) "GOTO ") with false.
    change (startsWith ("STATUS" ++ String c r) "SPEED ") with false.
    change (String.eqb ("STATUS" ++ String c r) "HOME") with false.
    change (String.eqb ("STATUS" ++ String c r) "STATUS") with false.
    apply unknown_reply.
Qed.

(** *** Steps only while the driver is enabled *)

Lemma en_after_app (t u : list Event) : forall en : Level,
  en_after en (t ++ u) = en_after (en_after en t) u.
Proof.
  induction t as [|e t IH]; intros en; [reflexivity|].
  destruct e as [pin v| | | | | | |]; cbn [app en_after]; try apply IH.
  destruct (pin =? EN_PIN); apply IH.
Qed.

Lemma steps_while_enabled_app (t u : list Event) : forall en : Level,
  steps_while_enabled en (t ++ u)
  = steps_while_enabled en t && steps_while_enabled (en_after en t) u.
Proof.
  induction t as [|e t IH]; intros en; [reflexivity|].
  destruct e as [pin v| | | | | | |];
    cbn [app en_after steps_while_enabled]; try apply IH.
  destruct (pin =? EN_PIN); [apply IH|].
  destruct (pin =? STEP_PIN); [|apply IH].
  destruct v, en; try apply IH. reflexivity.
Qed.

Lemma pulses_while_enabled (n : nat) (d : Z) (u : list Event) :
  steps_while_enabled LOW (repeat_events n (pulse d) ++ u)
  = steps_while_enabled LOW u /\
  forall en, en_after en (repeat_events n (pulse d) ++ u) = en_after en u.
Proof.
  induction n as [|n [IH1 IH2]]; [split; reflexivity|].
  cbn [repeat_events]. rewrite <- app_assoc. split.
  - exact IH1.
  - intros en. exact (IH2 en).
Qed.

(** The events [evs] a piece of code adds keep the invariant when they step
    only while enabled and end with EN as the latch says. *)
Lemma enabled_inv_app (en0 : Level) (s s' : State) (evs : list Event) :
  enabled_inv en0 s ->
  trace s' = (trace s ++ evs)%list ->
  steps_while_enabled (en_level s) evs = true ->
  en_level s' = en_after (en_level s) evs ->
  enabled_inv en0 s'.
Proof.
  intros [A B] T C D. unfold enabled_inv.
  rewrite T, steps_while_enabled_app, en_after_app, A, B. now split.
Qed.

Lemma move_to_enabled_inv (en0 : Level) (target : Z) (s : State) :
  enabled_inv en0 s -> enabled_inv en0 (move_to target s).
Proof.
  intros I.
  destruct (move_to_cases target s) as [[_ E]|[_ E]]; cbv zeta in E; rewrite E.
  - apply (enabled_inv_app en0 s _
             [DigitalWrite EN_PIN LOW; DelayMicroseconds 100;
              SerialPrintln "Already at target."] I).
    + trace_norm. reflexivity.
    + reflexivity.
    + reflexivity.
  - set (d := to_long (target - current_position s)).
    set (s2 := move_loop (Z.to_nat (abs d)) d (move_start d s)).
    apply (enabled_inv_app en0 s _
             ([DigitalWrite EN_PIN LOW; DelayMicroseconds 100;
               DigitalWrite DIR_PIN (if 0 <? d then HIGH else LOW);
               DelayMicroseconds 5;
               SerialPrint "Moving "; SerialPrintNum (abs d);
               SerialPrintln (if 0 <? d then " steps FORWARD..."
                              else " steps BACKWARD...")]
              ++ repeat_events (Z.to_nat (abs d)) (pulse (step_delay_us s))
              ++ [SerialPrint "Done. Position: ";
                  SerialPrintlnNum (current_position s2);
                  DigitalWrite EN_PIN HIGH]) I).
    + unfold disable_motor, digitalWrite, Serial_println_num, Serial_print.
      rewrite trace_emit.
      change (trace (set_latch EN_PIN HIGH ?x)) with (trace x).
      rewrite !trace_emit. subst s2. rewrite move_loop_trace.
      destruct (move_start_frame d s) as (_ & _ & _ & S4 & _). rewrite S4.
      replace (trace (move_start d s)) with
        (trace s ++ [DigitalWrite EN_PIN LOW; DelayMicroseconds 100;
                     DigitalWrite DIR_PIN (if 0 <? d then HIGH else LOW);
                     DelayMicroseconds 5;
                     SerialPrint "Moving "; SerialPrintNum (abs d);
                     SerialPrintln (if 0 <? d then " steps FORWARD..."
                                    else " steps BACKWARD...")])%list
        by (unfold move_start; destruct (0 <? d); trace_norm; reflexivity).
      repeat rewrite <- app_assoc. reflexivity.
    + destruct (pulses_while_enabled (Z.to_nat (abs d)) (step_delay_us s)
                  [SerialPrint "Done. Position: ";
                   SerialPrintlnNum (current_position s2);
                   DigitalWrite EN_PIN HIGH]) as [P _].
      destruct (0 <? d); cbn [app steps_while_enabled];
        change (DIR_PIN =? EN_PIN) with false;
        change (DIR_PIN =? STEP_PIN) with false;
        change (EN_PIN =? EN_PIN) with true; cbv iota; rewrite P; reflexivity.
    + destruct (pulses_while_enabled (Z.to_nat (abs d)) (step_delay_us s)
                  [SerialPrint "Done. Position: ";
                   SerialPrintlnNum (current_position s2);
                   DigitalWrite EN_PIN HIGH]) as [_ P].
      destruct (0 <? d); cbn [app en_after];
        change (DIR_PIN =? EN_PIN) with false;
        change (EN_PIN =? EN_PIN) with true; cbv iota; rewrite P; reflexivity.
Qed.

Lemma home_loop_enabled_inv (en0 : Level) (LIMIT : nat -> Level) (fuel : nat) :
  forall (s : State) (r : LoopExit),
  enabled_inv en0 s -> en_level s = LOW ->
  home_loop LIMIT fuel s = Some r ->
  enabled_inv en0 (exit_state r).
Proof.
  induction fuel as [|fuel IH]; intros s r I He H; [discriminate|].
  destruct (LIMIT (limit_reads s)) eqn:L.
  - rewrite home_loop_closed in H by assumption.
    apply Some_inj in H. subst r. cbn [exit_state].
    apply (enabled_inv_app en0 s _ [DigitalRead LIMIT_PIN LOW] I);
      [|reflexivity|reflexivity].
    unfold trace. cbn [digitalRead snd log rev]. now rewrite L.
  - rewrite home_loop_open in H by assumption.
    assert (I1 : enabled_inv en0 (home_next LIMIT s)).
    { apply (enabled_inv_app en0 s _
               (DigitalRead LIMIT_PIN HIGH :: pulse (step_delay_us s)) I).
      - now rewrite home_next_trace, L.
      - rewrite He. reflexivity.
      - reflexivity. }
    assert (E1 : en_level (home_next LIMIT s) = LOW) by exact He.
    destruct (current_position (home_next LIMIT s) <? -10000).
    + apply Some_inj in H. subst r. cbn [exit_state].
      apply (enabled_inv_app en0 (home_next LIMIT s) _
               [SerialPrintln homing_failure_message; DigitalWrite EN_PIN HIGH]
               I1); [|reflexivity|reflexivity].
      trace_norm. reflexivity.
    + exact (IH _ _ I1 E1 H).
Qed.

Lemma handle_command_enabled_inv (en0 : Level) (LIMIT : nat -> Level)
  (fuel : nat) (cmd : string) (s s' : State) :
  enabled_inv en0 s ->
  handle_command LIMIT fuel cmd s = Some s' ->
  enabled_inv en0 s'.
Proof.
  intros I H. dispatch H cmd; try (apply Some_inj in H; subst s').
  - now apply move_to_enabled_inv.
  - now apply move_to_enabled_inv.
  - rewrite home_sequence_unfold in H.
    assert (I0 : enabled_inv en0 (home_prelude s)).
    { apply (enabled_inv_app en0 s _
               [SerialPrintln "Homing..."; DigitalWrite EN_PIN LOW;
                DelayMicroseconds 100; DigitalWrite DIR_PIN LOW;
                DelayMicroseconds 5] I); [|reflexivity|reflexivity].
      trace_norm. reflexivity. }
    destruct (home_loop LIMIT fuel (home_prelude s)) as [[s1|s1]|] eqn:E;
      [| |discriminate]; apply Some_inj in H; subst s';
      pose proof (home_loop_enabled_inv en0 LIMIT fuel _ _ I0 eq_refl E) as I1;
      cbn [exit_state] in I1; [|exact I1].
    apply (enabled_inv_app en0 s1 _
             [SerialPrintln home_found_message; DigitalWrite EN_PIN HIGH] I1);
      [|reflexivity|reflexivity].
    trace_norm. reflexivity.
  - eapply (enabled_inv_app en0 s _ [_; _; _] I);
      [trace_norm; reflexivity | reflexivity | reflexivity].
  - eapply (enabled_inv_app en0 s _ [_] I);
      [trace_norm; reflexivity | reflexivity | reflexivity].
  - eapply (enabled_inv_app en0 s _ [_; _; _; _; _; _; _; _; _; _; _; _] I);
      [trace_norm; reflexivity | reflexivity | reflexivity].
  - eapply (enabled_inv_app en0 s _ [_] I);
      [trace_norm; reflexivity | reflexivity | reflexivity].
Qed.

Lemma run_enabled_inv (en0 : Level) (LIMIT : nat -> Level) (fuel : nat)
  (lines : list string) : forall s s' : State,
  enabled_inv en0 s ->
  run LIMIT fuel lines s = Some s' ->
  enabled_inv en0 s'.
Proof.
  induction lines as [|line rest IH]; intros s s' I H.
  - apply Some_inj in H. now subst s'.
  - cbn [run loop] in H.
    destruct (handle_command LIMIT fuel (toUpperCase (trim line)) s) as [s1|] eqn:E;
      [|discriminate].
    exact (IH s1 s' (handle_command_enabled_inv en0 LIMIT fuel _ s s1 I E) H).
Qed.

(** X6.  The sketch never pulses STEP while the driver is disabled: in the
    trace of any sequence of command lines after [setup], every rising edge
    on STEP comes after EN was driven low and before it is driven high
    again, whatever the limit switch does and whatever level EN had at
    reset. *)
Theorem steps_only_while_enabled :
  forall (en0 : Level) (LIMIT : nat -> Level) (fuel : nat)
         (lines : list string) (s' : State),
  run LIMIT fuel lines init = Some s' ->
  steps_while_enabled en0 (trace s') = true.
Proof.
  intros en0 LIMIT fuel lines s' H.
  assert (I : enabled_inv en0 init) by (split; reflexivity).
  exact (proj1 (run_enabled_inv en0 LIMIT fuel lines init s' I H)).
Qed.

Lemma steps_only_while_enabled_witness :
  exists s',
    run (active_after 2) 5 ["home"; "MOVE 3"; "goto 3"; "move -1"] init = Some s' /\
    step_pulses s' - step_pulses init = 6 /\
    steps_while_enabled HIGH (trace s') = true.
Proof.
  eexists. split; [vm_compute; reflexivity|]. split; [vm_compute; reflexivity|].
  apply (steps_only_while_enabled HIGH (active_after 2) 5
           ["home"; "MOVE 3"; "goto 3"; "move -1"]).
  vm_compute. reflexivity.
Defined.

(** *** The command loop as a whole *)

(** X5.  The invariant of the data model holds along every command stream:
    from a state where the position is a [long] and the step delay lies in
    [500, 10000], every state that [loop] reaches is again such a state. *)
Theorem command_stream_keeps_invariant :
  forall (LIMIT : nat -> Level) (fuel : nat) (lines : list string) (s s' : State),
  wf s ->
  run LIMIT fuel lines s = Some s' ->
  in_long (current_position s') /\ 500 <= step_delay_us s' <= 10000.
Proof.
  intros LIMIT fuel lines. induction lines as [|line rest IH]; intros s s' W H.
  - apply Some_inj in H. now subst s'.
  - cbn [run loop] in H.
    destruct (handle_command LIMIT fuel (toUpperCase (trim line)) s) as [s1|] eqn:E;
      [|discriminate].
    exact (IH s1 s' (handle_command_wf LIMIT fuel _ s s1 W E) H).
Qed.

Lemma command_stream_keeps_invariant_witness :
  wf init /\
  exists s',
    run never_active 0 ["speed 700"; "MOVE -12"; "SPEED 20000"] init = Some s' /\
    step_delay_us s' = 700 /\
    in_long (current_position s') /\ 500 <= step_delay_us s' <= 10000.
Proof.
  split; [exact wf_init|]. eexists.
  split; [vm_compute; reflexivity|]. split; [vm_compute; reflexivity|].
  apply (command_stream_keeps_invariant never_active 0
           ["speed 700"; "MOVE -12"; "SPEED 20000"] init).
  - exact wf_init.
  - vm_compute. reflexivity.
Defined.

(** X7.  No command blocks the loop: from a state that satisfies the
    invariant, every finite sequence of lines is handled to its end,
    whatever the limit switch does; the only unbounded-looking loop, the
    homing search, gives up by itself. *)
Theorem command_stream_never_blocks :
  forall (LIMIT : nat -> Level) (lines : list string) (s : State),
  wf s ->
  exists fuel s',
    run LIMIT fuel lines s = Some s' /\
    forall fuel', (fuel <= fuel')%nat -> run LIMIT fuel' lines s = Some s'.
Proof.
  intros LIMIT lines s W.
  destruct (run_terminates LIMIT lines s W) as (fuel & s' & E & _).
  exists fuel, s'. split; [exact E|].
  intros fuel' Hle. exact (run_fuel_mono LIMIT lines fuel fuel' s s' E Hle).
Qed.

Lemma command_stream_never_blocks_witness :
  exists fuel s',
    run never_active fuel ["HOME"; "STATUS"; "HOME"] init = Some s'.
Proof.
  destruct (command_stream_never_blocks never_active
              ["HOME"; "STATUS"; "HOME"] init wf_init)
    as (fuel & s' & E & _).
  exists fuel, s'. exact E.
Defined.

(** *** Normalisation of the line in [loop] *)

Lemma isspace_toupper (c : ascii) : isspace (toupper c) = isspace c.
Proof. destruct c as [[] [] [] [] [] [] [] []]; reflexivity. Qed.

Lemma toupper_idempotent (c : ascii) : toupper (toupper c) = toupper c.
Proof. destruct c as [[] [] [] [] [] [] [] []]; reflexivity. Qed.

Lemma toUpperCase_idempotent (s : string) :
  toUpperCase (toUpperCase s) = toUpperCase s.
Proof.
  induction s as [|c s IH]; [reflexivity|].
  cbn [toUpperCase]. now rewrite toupper_idempotent, IH.
Qed.

Lemma skip_space_toUpperCase (s : string) :
  skip_space (toUpperCase s) = toUpperCase (skip_space s).
Proof.
  induction s as [|c s IH]; [reflexivity|].
  cbn [toUpperCase skip_space]. rewrite isspace_toupper.
  destruct (isspace c); [exact IH | reflexivity].
Qed.

Lemma trim_end_toUpperCase (s : string) :
  trim_end (toUpperCase s) = toUpperCase (trim_end s).
Proof.
  induction s as [|c s IH]; [reflexivity|].
  cbn [toUpperCase trim_end]. rewrite IH, isspace_toupper.
  destruct (trim_end s); [|reflexivity].
  cbn [toUpperCase]. destruct (isspace c); reflexivity.
Qed.

Lemma trim_toUpperCase (s : string) :
  trim (toUpperCase s) = toUpperCase (trim s).
Proof.
  unfold trim. now rewrite skip_space_toUpperCase, trim_end_toUpperCase.
Qed.

Lemma skip_space_all_space (ws : string) :
  all_space ws = true -> skip_space ws = "".
Proof.
  induction ws as [|c ws IH]; [reflexivity|].
  cbn [all_space skip_space]. intros H. apply andb_prop in H.
  destruct H as [H1 H2]. rewrite H1. auto.
Qed.

Lemma trim_end_all_space (ws : string) :
  all_space ws = true -> trim_end ws = "".
Proof.
  induction ws as [|c ws IH]; [reflexivity|].
  cbn [all_space trim_end]. intros H. apply andb_prop in H.
  destruct H as [H1 H2]. now rewrite (IH H2), H1.
Qed.

Lemma skip_space_app_l (ws s : string) :
  all_space ws = true -> skip_space (ws ++ s) = skip_space s.
Proof.
  induction ws as [|c ws IH]; [reflexivity|].
  cbn [all_space append skip_space]. intros H. apply andb_prop in H.
  destruct H as [H1 H2]. rewrite H1. auto.
Qed.

Lemma trim_end_app_r (s ws : string) :
  all_space ws = true -> trim_end (s ++ ws) = trim_end s.
Proof.
  intros H. induction s as [|c s IH].
  - cbn [append]. now rewrite trim_end_all_space.
  - cbn [append trim_end]. now rewrite IH.
Qed.

Lemma trim_app_r (s ws : string) :
  all_space ws = true -> trim (s ++ ws) = trim s.
Proof.
  intros H. unfold trim. induction s as [|c s IH].
  - cbn [append]. now rewrite skip_space_all_space.
  - cbn [append skip_space]. destruct (isspace c); [exact IH|].
    change (String c (s ++ ws)) with (String c s ++ ws).
    now apply trim_end_app_r.
Qed.

(** X8.  White space around a command does not count: a line, and the same
    line with any white space before and after it, have the same effect. *)
Theorem surrounding_white_space_is_ignored :
  forall (LIMIT : nat -> Level) (fuel : nat) (ws1 ws2 line : string) (s : State),
  all_space ws1 = true ->
  all_space ws2 = true ->
  loop LIMIT fuel (Some (ws1 ++ line ++ ws2)) s = loop LIMIT fuel (Some line) s.
Proof.
  intros LIMIT fuel ws1 ws2 line s H1 H2. cbn [loop].
  replace (trim (ws1 ++ line ++ ws2)) with (trim line); [reflexivity|].
  unfold trim at 2. rewrite skip_space_app_l by assumption.
  fold (trim (line ++ ws2)). symmetry. now apply trim_app_r.
Qed.

Lemma surrounding_white_space_is_ignored_witness :
  loop never_active 0 (Some ("  " ++ "MOVE 2" ++ " ")) init
  = loop never_active 0 (Some "MOVE 2") init.
Proof.
  apply (surrounding_white_space_is_ignored never_active 0 "  " " " "MOVE 2" init);
    reflexivity.
Defined.

(** X16.  Commands are case-insensitive: two lines that differ only by the
    case of their letters have the same effect. *)
Theorem commands_are_case_insensitive :
  forall (LIMIT : nat -> Level) (fuel : nat) (l1 l2 : string) (s : State),
  toUpperCase l1 = toUpperCase l2 ->
  loop LIMIT fuel (Some l1) s = loop LIMIT fuel (Some l2) s.
Proof.
  intros LIMIT fuel l1 l2 s H. cbn [loop].
  now rewrite <- !trim_toUpperCase, H.
Qed.

Lemma commands_are_case_insensitive_witness :
  loop never_active 0 (Some "Goto 5") init
  = loop never_active 0 (Some "gOTO 5") init.
Proof.
  apply (commands_are_case_insensitive never_active 0 "Goto 5" "gOTO 5" init).
  reflexivity.
Defined.

(** *** Decimal arguments *)

Lemma isdigit_facts (c : ascii) :
  isdigit c = true ->
  isspace c = false /\ Ascii.eqb c "-" = false /\ Ascii.eqb c "+" = false /\
  0 <= digit_value c <= 9.
Proof.
  destruct c as [[] [] [] [] [] [] [] []]; intros H;
    try discriminate H; (repeat split; try reflexivity; vm_compute; discriminate).
Qed.

Lemma decimal_value_nonneg (ds : string) : forall acc : Z,
  all_digit ds = true -> 0 <= acc -> 0 <= decimal_value acc ds.
Proof.
  induction ds as [|c ds IH]; intros acc H Hacc; [exact Hacc|].
  cbn [all_digit] in H. apply andb_prop in H. destruct H as [H1 H2].
  cbn [decimal_value]. apply IH; [exact H2|].
  destruct (isdigit_facts c H1) as (_ & _ & _ & D). lia.
Qed.

Lemma decimal_value_wrap (ds : string) : forall x : Z,
  to_long (decimal_value (to_long x) ds) = to_long (decimal_value x ds).
Proof.
  induction ds as [|c ds IH]; intros x.
  - cbn [decimal_value]. long_arith.
  - cbn [decimal_value].
    rewrite <- (IH (to_long x * 10 + digit_value c)).
    rewrite <- (IH (x * 10 + digit_value c)).
    do 2 f_equal. long_arith.
Qed.

(** The digit loop of [atol] computes the decimal value, reduced to 32
    bits, and stops at the first character that is not a digit. *)
Lemma atol_digits_decimal (ds rest : string) : forall acc : Z,
  all_digit ds = true ->
  starts_with_digit rest = false ->
  in_long acc ->
  atol_digits acc (ds ++ rest) = to_long (decimal_value acc ds).
Proof.
  induction ds as [|c ds IH]; intros acc H Hr Hacc.
  - cbn [append decimal_value]. rewrite to_long_id by assumption.
    destruct rest as [|c r]; [reflexivity|].
    cbn [starts_with_digit] in Hr. now apply atol_digits_stops.
  - cbn [all_digit] in H. apply andb_prop in H. destruct H as [H1 H2].
    cbn [append atol_digits decimal_value]. rewrite H1.
    rewrite IH by (try assumption; apply to_long_in_long).
    apply decimal_value_wrap.
Qed.

Lemma toInt_decimal (ws sign ds rest : string) :
  all_space ws = true ->
  (sign = "" \/ sign = "+" \/ sign = "-") ->
  all_digit ds = true -> ds <> "" ->
  starts_with_digit rest = false ->
  decimal_value 0 ds <= LONG_MAX ->
  toInt (ws ++ sign ++ ds ++ rest)
  = if String.eqb sign "-" then - decimal_value 0 ds else decimal_value 0 ds.
Proof.
  intros Hws Hsign Hds Hne Hrest Hmax.
  pose proof (decimal_value_nonneg ds 0 Hds (Z.le_refl 0)) as H0.
  assert (Z0 : in_long 0) by (unfold_long; lia).
  pose proof (atol_digits_decimal ds rest 0 Hds Hrest Z0) as A.
  rewrite to_long_id in A by (unfold_long; lia).
  unfold toInt, atol. rewrite skip_space_app_l by assumption.
  destruct Hsign as [->|[->| ->]]; cbn [append skip_space].
  - destruct ds as [|c ds]; [congruence|].
    cbn [all_digit] in Hds. apply andb_prop in Hds. destruct Hds as [H1 _].
    destruct (isdigit_facts c H1) as (S1 & S2 & S3 & _).
    cbn [append skip_space]. rewrite S1, S2, S3. exact A.
  - change (isspace "+") with false. cbv iota.
    change (Ascii.eqb "+" "-") with false.
    change (Ascii.eqb "+" "+") with true. cbv iota. exact A.
  - change (isspace "-") with false. cbv iota.
    change (Ascii.eqb "-" "-") with true. cbv iota. rewrite A.
    change (String.eqb "-" "-") with true. cbv iota.
    apply to_long_id. unfold_long. lia.
Qed.

(** X10.  A numeric argument is read in decimal: optional white space, an
    optional sign and digits give the number they write (when it fits in a
    [long]), and whatever follows the last digit is ignored; MOVE moves by
    that number and GOTO goes to it. *)
Theorem numeric_argument_is_decimal :
  forall (LIMIT : nat -> Level) (fuel : nat) (ws sign ds rest : string) (s : State),
  all_space ws = true ->
  (sign = "" \/ sign = "+" \/ sign = "-") ->
  all_digit ds = true -> ds <> "" ->
  starts_with_digit rest = false ->
  decimal_value 0 ds <= LONG_MAX ->
  let n := if String.eqb sign "-" then - decimal_value 0 ds
           else decimal_value 0 ds in
  handle_command LIMIT fuel ("MOVE " ++ ws ++ sign ++ ds ++ rest) s
    = Some (move_relative n s) /\
  handle_command LIMIT fuel ("GOTO " ++ ws ++ sign ++ ds ++ rest) s
    = Some (move_to n s) /\
  handle_command LIMIT fuel ("SPEED " ++ ws ++ sign ++ ds ++ rest) s
    = handle_command LIMIT fuel ("SPEED " ++ sign ++ ds) s.
Proof.
  intros LIMIT fuel ws sign ds rest s Hws Hsign Hds Hne Hrest Hmax n.
  pose proof (toInt_decimal ws sign ds rest Hws Hsign Hds Hne Hrest Hmax) as E.
  fold n in E.
  assert (E0 : toInt (sign ++ ds) = n).
  { pose proof (toInt_decimal "" sign ds "" eq_refl Hsign Hds Hne eq_refl Hmax) as E0.
    cbn [append] in E0.
    replace (ds ++ "") with ds in E0; [exact E0|].
    clear. induction ds as [|c ds IH]; [reflexivity|].
    cbn [append]. now rewrite <- IH. }
  rewrite handle_command_MOVE, handle_command_GOTO, !handle_command_SPEED, E, E0.
  repeat split.
Qed.

Lemma numeric_argument_is_decimal_witness :
  handle_command never_active 0 "MOVE  -42mm" init
  = Some (move_relative (-42) init).
Proof.
  assert (H1 : all_space " " = true) by reflexivity.
  assert (H2 : "-" = "" \/ "-" = "+" \/ "-" = "-") by (right; right; reflexivity).
  assert (H3 : all_digit "42" = true) by reflexivity.
  assert (H4 : "42" <> "") by discriminate.
  assert (H5 : starts_with_digit "mm" = false) by reflexivity.
  assert (H6 : decimal_value 0 "42" <= LONG_MAX) by (vm_compute; discriminate).
  exact (proj1 (numeric_argument_is_decimal never_active 0 " " "-" "42" "mm"
                  init H1 H2 H3 H4 H5 H6)).
Defined.

(** *** The position follows the motor *)

Lemma dir_after_app (t u : list Event) : forall dir : Level,
  dir_after dir (t ++ u) = dir_after (dir_after dir t) u.
Proof.
  induction t as [|e t IH]; intros dir; [reflexivity|].
  destruct e as [pin v| | | | | | |]; cbn [app dir_after]; try apply IH.
  destruct (pin =? DIR_PIN); apply IH.
Qed.

Lemma displacement_app (t u : list Event) : forall dir : Level,
  displacement dir (t ++ u)
  = displacement dir t + displacement (dir_after dir t) u.
Proof.
  induction t as [|e t IH]; intros dir; [reflexivity|].
  destruct e as [pin v| | | | | | |];
    cbn [app dir_after displacement]; try apply IH.
  destruct (pin =? DIR_PIN); [apply IH|].
  destruct (pin =? STEP_PIN); [|apply IH].
  destruct v; [apply IH|]. rewrite IH. lia.
Qed.

Lemma pulses_displacement (n : nat) (d : Z) (dir : Level) :
  displacement dir (repeat_events n (pulse d))
  = (match dir with HIGH => 1 | LOW => -1 end) * Z.of_nat n /\
  dir_after dir (repeat_events n (pulse d)) = dir.
Proof.
  induction n as [|n [IH1 IH2]]; [split; [destruct dir; reflexivity | reflexivity]|].
  cbn [repeat_events]. rewrite displacement_app, dir_after_app.
  change (dir_after dir (pulse d)) with dir.
  change (displacement dir (pulse d))
    with ((match dir with HIGH => 1 | LOW => -1 end) + 0).
  rewrite IH1, IH2. split; [destruct dir; lia | reflexivity].
Qed.

Lemma tracks_refl (s : State) : in_long (current_position s) -> tracks s s.
Proof.
  intros Hp. exists []. rewrite app_nil_r. repeat split.
  cbn [displacement]. rewrite Z.add_0_r. symmetry. now apply to_long_id.
Qed.

Lemma tracks_trans (s1 s2 s3 : State) :
  tracks s1 s2 -> tracks s2 s3 -> tracks s1 s3.
Proof.
  intros (e1 & T1 & D1 & P1) (e2 & T2 & D2 & P2).
  exists (e1 ++ e2)%list. split; [|split].
  - now rewrite T2, T1, app_assoc.
  - now rewrite D2, D1, dir_after_app.
  - rewrite P2, P1, D1, displacement_app, to_long_add_l. f_equal. lia.
Qed.

(** Events that are no pin writes, added to the log alone, leave the motor
    where it is. *)
Lemma tracks_quiet (s s' : State) (evs : list Event) :
  in_long (current_position s) ->
  trace s' = (trace s ++ evs)%list ->
  dir_level s' = dir_level s ->
  current_position s' = current_position s ->
  (forall dir, displacement dir evs = 0 /\ dir_after dir evs = dir) ->
  tracks s s'.
Proof.
  intros Hp T D P Q. exists evs. destruct (Q (dir_level s)) as [Q1 Q2].
  rewrite Q1, Q2, Z.add_0_r, to_long_id by assumption. now repeat split.
Qed.

Lemma move_to_nonzero_trace (target : Z) (s : State) :
  let d := to_long (target - current_position s) in
  d <> 0 ->
  trace (move_to target s) =
  (trace s
   ++ [DigitalWrite EN_PIN LOW; DelayMicroseconds 100;
       DigitalWrite DIR_PIN (if 0 <? d then HIGH else LOW);
       DelayMicroseconds 5;
       SerialPrint "Moving "; SerialPrintNum (abs d);
       SerialPrintln (if 0 <? d then " steps FORWARD..."
                      else " steps BACKWARD...")]
   ++ repeat_events (Z.to_nat (abs d)) (pulse (step_delay_us s))
   ++ [SerialPrint "Done. Position: ";
       SerialPrintlnNum (current_position (move_to target s));
       DigitalWrite EN_PIN HIGH])%list.
Proof.
  intros d N. rewrite (move_to_nonzero_eq target s N). cbv zeta. fold d.
  set (s2 := move_loop (Z.to_nat (abs d)) d (move_start d s)).
  change (current_position (disable_motor (Serial_println_num ?n (Serial_print ?m ?x))))
    with (current_position x).
  unfold disable_motor, digitalWrite, Serial_println_num, Serial_print.
  rewrite trace_emit.
  change (trace (set_latch EN_PIN HIGH ?x)) with (trace x).
  rewrite !trace_emit. subst s2. rewrite move_loop_trace.
  destruct (move_start_frame d s) as (_ & _ & _ & S4 & _). rewrite S4.
  replace (trace (move_start d s)) with
    (trace s ++ [DigitalWrite EN_PIN LOW; DelayMicroseconds 100;
                 DigitalWrite DIR_PIN (if 0 <? d then HIGH else LOW);
                 DelayMicroseconds 5;
                 SerialPrint "Moving "; SerialPrintNum (abs d);
                 SerialPrintln (if 0 <? d then " steps FORWARD..."
                                else " steps BACKWARD...")])%list
    by (unfold move_start; destruct (0 <? d); trace_norm; reflexivity).
  repeat rewrite <- app_assoc. reflexivity.
Qed.

Lemma move_to_tracks (target : Z) (s : State) :
  in_long (current_position s) -> tracks s (move_to target s).
Proof.
  intros Hp.
  destruct (move_to_cases target s) as [[_ E]|[N E]]; cbv zeta in E.
  - rewrite E.
    apply (tracks_quiet s _ [DigitalWrite EN_PIN LOW; DelayMicroseconds 100;
                             SerialPrintln "Already at target."] Hp);
      [trace_norm; reflexivity | reflexivity | reflexivity
      | intros dir; split; reflexivity].
  - set (d := to_long (target - current_position s)) in *.
    eexists. split; [exact (move_to_nonzero_trace target s N)|].
    fold d.
    destruct (pulses_displacement (Z.to_nat (abs d)) (step_delay_us s)
                (if 0 <? d then HIGH else LOW)) as [Q1 Q2].
    rewrite E.
    destruct (move_report_frame
                (current_position (move_loop (Z.to_nat (abs d)) d (move_start d s)))
                (move_loop (Z.to_nat (abs d)) d (move_start d s)))
      as (R1 & _ & R3 & _).
    rewrite R1, R3.
    destruct (move_loop_frame (Z.to_nat (abs d)) d (move_start d s))
      as (_ & _ & _ & DI & _).
    destruct (move_start_frame d s) as (S1 & _ & _ & _ & _ & S6 & _).
    rewrite DI, S6, move_loop_position, S1 by (rewrite S1; exact Hp).
    cbn [app dir_after displacement].
    change (EN_PIN =? DIR_PIN) with false.
    change (EN_PIN =? STEP_PIN) with false.
    change (DIR_PIN =? DIR_PIN) with true. cbv iota.
    rewrite dir_after_app, displacement_app, Q1, Q2.
    cbn [dir_after displacement].
    change (EN_PIN =? DIR_PIN) with false.
    change (EN_PIN =? STEP_PIN) with false. cbv iota.
    split; [reflexivity|].
    destruct (0 <? d); f_equal; lia.
Qed.

Lemma home_loop_tracks (LIMIT : nat -> Level) (fuel : nat) :
  forall (s : State) (r : LoopExit),
  in_long (current_position s) -> dir_level s = LOW ->
  home_loop LIMIT fuel s = Some r ->
  tracks s (exit_state r).
Proof.
  induction fuel as [|fuel IH]; intros s r Hp Hd H; [discriminate|].
  destruct (LIMIT (limit_reads s)) eqn:L.
  - rewrite home_loop_closed in H by assumption.
    apply Some_inj in H. subst r. cbn [exit_state].
    apply (tracks_quiet s _ [DigitalRead LIMIT_PIN LOW] Hp);
      [| reflexivity | reflexivity | intros dir; split; reflexivity].
    unfold trace. cbn [digitalRead snd log rev]. now rewrite L.
  - rewrite home_loop_open in H by assumption.
    destruct (home_next_frame LIMIT s) as (P & _ & _ & _ & DI & _).
    assert (T1 : tracks s (home_next LIMIT s)).
    { exists (DigitalRead LIMIT_PIN HIGH :: pulse (step_delay_us s)).
      split; [now rewrite home_next_trace, L|].
      rewrite DI, P, Hd. split; reflexivity. }
    assert (Hn : in_long (current_position (home_next LIMIT s)))
      by (rewrite P; apply to_long_in_long).
    clear P. generalize dependent (home_next LIMIT s). intros x H DI T1 Hn.
    destruct (current_position x <? -10000).
    + apply Some_inj in H. subst r. cbn [exit_state].
      apply (tracks_trans _ _ _ T1).
      apply (tracks_quiet _ _ [SerialPrintln homing_failure_message;
                               DigitalWrite EN_PIN HIGH] Hn);
      [trace_norm; reflexivity | reflexivity | reflexivity
      | intros dir; split; reflexivity].
    + apply (tracks_trans _ _ _ T1).
      apply (IH _ _ Hn); [now rewrite DI | exact H].
Qed.

(** X17.  The position variable follows the motor.  Over any command the
    position changes by the number of step pulses issued with DIR high
    minus the number issued with DIR low (in 32-bit arithmetic); the one
    exception is a successful HOME, which sets the position to 0. *)
Theorem position_follows_step_pulses :
  forall (LIMIT : nat -> Level) (fuel : nat) (cmd : string) (s s' : State),
  in_long (current_position s) ->
  handle_command LIMIT fuel cmd s = Some s' ->
  (exists evs,
     trace s' = (trace s ++ evs)%list /\
     current_position s' =
       to_long (current_position s + displacement (dir_level s) evs))
  \/ (cmd = "HOME" /\ current_position s' = 0).
Proof.
  intros LIMIT fuel cmd s s' Hp H.
  assert (W : forall x, tracks s x ->
            exists evs, trace x = (trace s ++ evs)%list /\
              current_position x =
                to_long (current_position s + displacement (dir_level s) evs)).
  { intros x (evs & T & _ & P). now exists evs. }
  dispatch H cmd; try (apply Some_inj in H; subst s').
  - left. apply W. now apply move_to_tracks.
  - left. apply W. now apply move_to_tracks.
  - rewrite home_sequence_unfold in H.
    destruct (home_loop LIMIT fuel (home_prelude s)) as [[s1|s1]|] eqn:E;
      [| |discriminate]; apply Some_inj in H; subst s'.
    + right. split; [assumption | reflexivity].
    + left. apply W.
      apply (tracks_trans s (home_prelude s) s1).
      * exists [SerialPrintln "Homing..."; DigitalWrite EN_PIN LOW;
                DelayMicroseconds 100; DigitalWrite DIR_PIN LOW;
                DelayMicroseconds 5].
        split; [trace_norm; reflexivity|]. split; [reflexivity|].
        change (current_position (home_prelude s)) with (current_position s).
        cbn [displacement].
        change (EN_PIN =? DIR_PIN) with false.
        change (EN_PIN =? STEP_PIN) with false.
        change (DIR_PIN =? DIR_PIN) with true. cbv iota.
        rewrite Z.add_0_r. symmetry. now apply to_long_id.
      * exact (home_loop_tracks LIMIT fuel (home_prelude s) _ Hp eq_refl E).
  - left. apply W. eapply (tracks_quiet s _ [_; _; _] Hp);
      [trace_norm; reflexivity | reflexivity | reflexivity
      | intros dir; split; reflexivity].
  - left. apply W. eapply (tracks_quiet s _ [_] Hp);
      [trace_norm; reflexivity | reflexivity | reflexivity
      | intros dir; split; reflexivity].
  - left. apply W.
    eapply (tracks_quiet s _ [_; _; _; _; _; _; _; _; _; _; _; _] Hp);
      [trace_norm; reflexivity | reflexivity | reflexivity
      | intros dir; split; reflexivity].
  - left. apply W. eapply (tracks_quiet s _ [_] Hp);
      [trace_norm; reflexivity | reflexivity | reflexivity
      | intros dir; split; reflexivity].
Qed.

Lemma position_follows_step_pulses_witness :
  exists s' evs,
    handle_command never_active 0 "MOVE -3" init = Some s' /\
    trace s' = (trace init ++ evs)%list /\
    current_position s' =
      to_long (current_position init + displacement (dir_level init) evs).
Proof.
  assert (Hp : in_long (current_position init)) by (vm_compute; split; discriminate).
  destruct (position_follows_step_pulses never_active 0 "MOVE -3" init
              (move_relative (-3) init) Hp eq_refl)
    as [(evs & T & P)|(C & _)]; [|discriminate C].
  exists (move_relative (-3) init), evs.
  split; [reflexivity|]. split; [exact T | exact P].
Defined.
